(** * MDFL-US/website: the scroll/drag-driven morph engine and the
      point-distribution generators of the hero visualisation.

    The development embeds two source files:
    - [src/App.tsx], the current page: the shared [drag] object with its
      pointer handlers and per-frame inertia, the mesh-sampling hook
      [useBrainTargets] (Strategy B), the vertex shader of the particle
      system and the per-frame callbacks of [ParticleSystem] and [BlackBox];
    - the earlier revision of the same page, whose [ParticleSystem] builds the
      brain targets by analytic rejection sampling (Strategy A).

    Numbers.  A JavaScript [number] (and a GLSL [float]) is idealised as a
    real number: [+], [-], [*], [/], [Math.abs], [Math.min], [Math.max],
    [Math.sqrt], [Math.sin], [Math.cos] and [Math.PI] are the operations of
    [R], and a comparison is the decision of the corresponding order on [R].
    Rounding, infinities and NaN are outside this model.  Where a property
    turns on the last digit of a result, the code is embedded a second time
    over binary64 numbers (module [Binary64]), with the operations and
    comparisons of IEEE 754 doubles. *)

From Stdlib Require Import Reals Lra Lia List Bool String ZArith.
From Stdlib Require Floats.
Import ListNotations.

Open Scope R_scope.

(* ================================================================== *)
(** * Part I.  The embedding                                            *)
(* ================================================================== *)

(** ** Comparisons of numbers, as booleans *)

Definition Rltb (a b : R) : bool := if Rlt_dec a b then true else false.
Definition Rleb (a b : R) : bool := if Rle_dec a b then true else false.

Notation "a <? b" := (Rltb a b) (at level 70, no associativity) : R_scope.
Notation "a <=? b" := (Rleb a b) (at level 70, no associativity) : R_scope.
Notation "a >? b" := (Rltb b a) (at level 70, no associativity) : R_scope.

(** ** Shared drag state ([src/App.tsx], lines 14-26) *)

Module DragController.

(** The module-level object [drag]. *)
Record Drag : Type := mkDrag {
  yaw      : R;    (* accumulated horizontal offset (radians) *)
  pitch    : R;    (* accumulated vertical offset   (radians) *)
  velYaw   : R;    (* inertia velocity (radians / frame)      *)
  velPitch : R;
  active   : bool;
  lastX    : R;
  lastY    : R
}.

(** Its initial value. *)
Definition drag : Drag :=
  {| yaw := 0; pitch := 0; velYaw := 0; velPitch := 0;
     active := false; lastX := 0; lastY := 0 |}.

Definition DRAG_SENS   : R := 0.004.
Definition DAMPING     : R := 0.90.
Definition PITCH_LIMIT : R := PI * 0.45.

(** Field assignments [drag.f = v]. *)
Definition set_yaw (v : R) (d : Drag) : Drag :=
  mkDrag v (pitch d) (velYaw d) (velPitch d) (active d) (lastX d) (lastY d).
Definition set_pitch (v : R) (d : Drag) : Drag :=
  mkDrag (yaw d) v (velYaw d) (velPitch d) (active d) (lastX d) (lastY d).
Definition set_velYaw (v : R) (d : Drag) : Drag :=
  mkDrag (yaw d) (pitch d) v (velPitch d) (active d) (lastX d) (lastY d).
Definition set_velPitch (v : R) (d : Drag) : Drag :=
  mkDrag (yaw d) (pitch d) (velYaw d) v (active d) (lastX d) (lastY d).
Definition set_active (v : bool) (d : Drag) : Drag :=
  mkDrag (yaw d) (pitch d) (velYaw d) (velPitch d) v (lastX d) (lastY d).
Definition set_lastX (v : R) (d : Drag) : Drag :=
  mkDrag (yaw d) (pitch d) (velYaw d) (velPitch d) (active d) v (lastY d).
Definition set_lastY (v : R) (d : Drag) : Drag :=
  mkDrag (yaw d) (pitch d) (velYaw d) (velPitch d) (active d) (lastX d) v.

(** The fields of a pointer event that the handlers read.  [button] is the
    button index; [pointerType] is ["mouse"], ["touch"] or ["pen"]. *)
Record PointerEvent : Type := mkPointerEvent {
  pointerType : string;
  button      : Z;
  clientX     : R;
  clientY     : R
}.

(** [onMove] of [useDragListeners] (lines 70-85).  The closing
    [e.preventDefault()] acts on the event, not on [drag]. *)
Definition onMove (e : PointerEvent) (d : Drag) : Drag :=
  if negb (active d) then d else
  let dx := clientX e - lastX d in
  let dy := clientY e - lastY d in
  let d := set_lastX (clientX e) d in
  let d := set_lastY (clientY e) d in
  let d := set_velYaw (dx * DRAG_SENS) d in
  let d := set_velPitch (dy * DRAG_SENS) d in
  let d := set_yaw (yaw d + velYaw d) d in
  let d := set_pitch
             (Rmax (- PITCH_LIMIT) (Rmin PITCH_LIMIT (pitch d + velPitch d))) d in
  d.

(** [onUp] (line 87). *)
Definition onUp (d : Drag) : Drag := set_active false d.

(** [startDrag] (lines 101-108).  [setPointerCapture] and [stopPropagation]
    act on the event target and on the event. *)
Definition startDrag (e : PointerEvent) (d : Drag) : Drag :=
  if String.eqb (pointerType e) "mouse" && negb (Z.eqb (button e) 0) then d else
  let d := set_active true d in
  let d := set_lastX (clientX e) d in
  let d := set_lastY (clientY e) d in
  d.

(** [advanceDragInertia] (lines 112-121). *)
Definition advanceDragInertia (d : Drag) : Drag :=
  if active d then d else
  let d := set_yaw (yaw d + velYaw d) d in
  let d := set_pitch (pitch d + velPitch d) d in
  let d := set_pitch (Rmax (- PITCH_LIMIT) (Rmin PITCH_LIMIT (pitch d))) d in
  let d := set_velYaw (velYaw d * DAMPING) d in
  let d := set_velPitch (velPitch d * DAMPING) d in
  let d := if Rabs (velYaw d) <? 1e-5 then set_velYaw 0 d else d in
  let d := if Rabs (velPitch d) <? 1e-5 then set_velPitch 0 d else d in
  d.

(** What can happen to [drag]: the three pointer handlers and the one
    inertia step of a rendered frame. *)
Inductive Event : Type :=
| PointerDown (e : PointerEvent)
| PointerMove (e : PointerEvent)
| PointerUp
| Frame.

Definition step (d : Drag) (ev : Event) : Drag :=
  match ev with
  | PointerDown e => startDrag e d
  | PointerMove e => onMove e d
  | PointerUp     => onUp d
  | Frame         => advanceDragInertia d
  end.

(** The events of a session, oldest first. *)
Definition run (evs : list Event) (d : Drag) : Drag := fold_left step evs d.

(** [n] consecutive frames without pointer events. *)
Definition frames (n : nat) (d : Drag) : Drag := Nat.iter n advanceDragInertia d.

(** [pitch] respects the clamp. *)
Definition pitch_in_range (d : Drag) : Prop :=
  - PITCH_LIMIT <= pitch d <= PITCH_LIMIT.

(** Coasting from [d], [velYaw] follows [0.4 * 0.9 ^ n] on the frames before
    frame [N] and is 0 after frame [N]. *)
Definition snaps_at (d : Drag) (N : nat) : Prop :=
  (forall n, (n < N)%nat -> velYaw (frames n d) = 0.4 * 0.9 ^ n) /\
  velYaw (frames N d) = 0.

(** A primary-button press at the origin, one move 100 pixels to the right,
    and the release. *)
Definition press_origin : PointerEvent := mkPointerEvent "mouse" 0 0 0.
Definition move_right_100 : PointerEvent := mkPointerEvent "mouse" 0 100 0.
Definition flicked : Drag := onUp (onMove move_right_100 (startDrag press_origin drag)).

End DragController.

(** ** Per-frame transforms of the two objects ([src/App.tsx]) *)

Module TransformSync.
Import DragController.

(** [rotation.y] and [rotation.x] of a group. *)
Record Rotation : Type := mkRotation { rotation_y : R; rotation_x : R }.

(** The rotation that [ParticleSystem]'s [useFrame] assigns (lines 332-335);
    [elapsedTime] is [state.clock.elapsedTime], [s] the scroll progress. *)
Definition particle_rotation (elapsedTime s : R) (d : Drag) : Rotation :=
  {| rotation_y := elapsedTime * 0.05 + s * PI * 2 + yaw d;
     rotation_x := s * PI * 0.5 + pitch d |}.

(** The rotation that [BlackBox]'s [useFrame] assigns (lines 383-384). *)
Definition box_rotation (s : R) (d : Drag) : Rotation :=
  {| rotation_y := s * PI * 2 + yaw d;
     rotation_x := s * PI * 0.5 + pitch d |}.

(** [opacity] of [BlackBox]'s [useFrame] (lines 370-373). *)
Definition opacity (s : R) : R :=
  if (s >? 0.1) && (s <=? 0.3) then (s - 0.1) / 0.2
  else if (s >? 0.3) && (s <=? 0.4) then 1
  else if (s >? 0.4) && (s <=? 0.5) then 1 - (s - 0.4) / 0.1
  else 0.

(** [scale] of [BlackBox]'s [useFrame] (lines 375-376). *)
Definition scale (s : R) : R :=
  if (s >? 0.4) && (s <=? 0.5) then 1 + ((s - 0.4) / 0.1) * 0.8 else 1.

(** What one rendered frame does: [ParticleSystem]'s callback advances the
    inertia and places its group, then [BlackBox]'s callback reads the
    already-updated [drag]. *)
Record FrameOut : Type := mkFrameOut {
  particles_rot : Rotation;
  box_rot       : Rotation;
  box_scale     : R;
  box_opacity   : R
}.

Definition render_frame (elapsedTime s : R) (d : Drag) : FrameOut * Drag :=
  let d := advanceDragInertia d in
  ({| particles_rot := particle_rotation elapsedTime s d;
      box_rot       := box_rotation s d;
      box_scale     := scale s;
      box_opacity   := opacity s |}, d).

End TransformSync.

(** ** The vertex shader of the particle system *)

Module MorphEngine.

(** A GLSL [vec3]. *)
Record vec3 : Type := mkVec3 { px : R; py : R; pz : R }.

(** Modelled from the spec: [clamp], the GLSL built-in that bounds [x] to
    [[lo, hi]]; the shader language provides it, the repository does not
    define it. *)
Definition clamp (x lo hi : R) : R := Rmin (Rmax x lo) hi.

(** Modelled from the spec: [smoothstep], the GLSL built-in that the shader
    calls and the repository does not define.  The specification: clamp
    [t = (x - a) / (b - a)] to [[0,1]], return [t * t * (3 - 2 * t)]. *)
Definition smoothstep (a b x : R) : R :=
  let t := clamp ((x - a) / (b - a)) 0 1 in
  t * t * (3 - 2 * t).

(** Modelled from the spec: [mix], the GLSL built-in for linear
    interpolation (the specification's [lerp]), on a [float]. *)
Definition mix (u v t : R) : R := u * (1 - t) + v * t.

(** [mix] on a [vec3], component by component. *)
Definition mix3 (u v : vec3) (t : R) : vec3 :=
  {| px := mix (px u) (px v) t;
     py := mix (py u) (py v) t;
     pz := mix (pz u) (pz v) t |}.

(** The per-vertex inputs: the attributes [position] (the random target),
    [aBox], [aBrain], [aOffset], and the uniforms [uScroll] and [uTime]. *)
Record VertexIn : Type := mkVertexIn {
  position : vec3;
  aBox     : vec3;
  aBrain   : vec3;
  aOffset  : R;
  uScroll  : R;
  uTime    : R
}.

Definition t1 (v : VertexIn) : R := smoothstep 0.1 0.3 (uScroll v).
Definition t2 (v : VertexIn) : R := smoothstep 0.5 0.7 (uScroll v).

(** [pos] after the two [mix] assignments ([src/App.tsx], lines 276-282). *)
Definition blended (v : VertexIn) : vec3 :=
  let pos := position v in
  let pos := mix3 pos (aBox v) (t1 v) in
  let pos := mix3 pos (aBrain v) (t2 v) in
  pos.

(** [pos] as it is handed to [modelViewMatrix]: the blend plus the floating
    noise of lines 284-285. *)
Definition rendered (v : VertexIn) : vec3 :=
  let pos := blended v in
  let pos := mkVec3 (px pos)
                    (py pos + sin (uTime v * 1.5 + aOffset v) * 0.2 * (1.0 - t1 v * 0.9))
                    (pz pos) in
  let pos := mkVec3 (px pos + cos (uTime v * 1.0 + aOffset v) * 0.1 * (1.0 - t1 v * 0.9))
                    (py pos)
                    (pz pos) in
  pos.

(** [vPulse] (line 292), [baseSize] before the perspective division
    (lines 290-293) and [vAlpha] (lines 296-299). *)
Definition vPulse (v : VertexIn) : R := sin (uTime v * 3.0 + aOffset v) * 0.5 + 0.5.

Definition baseSize (v : VertexIn) : R :=
  let baseSize := mix 20.0 10.0 (t1 v) in
  let baseSize := mix baseSize 15.0 (t2 v) in
  baseSize + vPulse v * 4.0.

Definition vAlpha (v : VertexIn) : R :=
  let vAlpha := mix 0.4 0.8 (t1 v) in
  let vAlpha := mix vAlpha 0.6 (t2 v) in
  let introFade := smoothstep 0.05 0.15 (uScroll v) in
  vAlpha * introFade.

(** The floating noise left at [t1 = 1]: a tenth of its idle amplitude. *)
Definition boxed_noise (v : VertexIn) : vec3 :=
  {| px := cos (uTime v + aOffset v) * 0.01;
     py := sin (uTime v * 1.5 + aOffset v) * 0.02;
     pz := 0 |}.

Definition add3 (u w : vec3) : vec3 :=
  {| px := px u + px w; py := py u + py w; pz := pz u + pz w |}.

(** A vertex at the origin of all three targets, at time 0. *)
Definition still_vertex (s : R) : VertexIn :=
  let o := mkVec3 0 0 0 in mkVertexIn o o o 0 s 0.

End MorphEngine.

(** ** [Math.random] and the two target generators *)

Module ShapeSampler.

(** The four arrays that [positions] returns; a [Float32Array] is the list
    of its elements. *)
Record Positions : Type := mkPositions {
  random        : list R;
  box           : list R;
  brain         : list R;
  randomOffsets : list R
}.

Definition empty_positions : Positions := mkPositions [] [] [] [].

(** One pass of the [for] loop writes three entries of each target array and
    one offset, at the indices that follow those of the passes before. *)
Definition push (rv bv br : R * R * R) (off : R) (p : Positions) : Positions :=
  let '(r0, r1, r2) := rv in
  let '(b0, b1, b2) := bv in
  let '(n0, n1, n2) := br in
  {| random        := r0 :: r1 :: r2 :: random p;
     box           := b0 :: b1 :: b2 :: box p;
     brain         := n0 :: n1 :: n2 :: brain p;
     randomOffsets := off :: randomOffsets p |}.

Section WithRandom.

(** The successive results of [Math.random()]: the [k]-th call returns
    [rnd k].  The state threaded through the code is the number of calls
    made so far. *)
Variable rnd : nat -> R.

(** Code that may execute [continue]: [None] is the jump back to the head of
    the enclosing [while (true)]. *)
Definition Body (A : Type) : Type := nat -> option A * nat.

Definition ret {A} (a : A) : Body A := fun k => (Some a, k).

Definition bind {A B} (m : Body A) (f : A -> Body B) : Body B :=
  fun k => match m k with
           | (Some a, k') => f a k'
           | (None, k')   => (None, k')
           end.

Definition Math_random : Body R := fun k => (Some (rnd k), S k).

Definition continue : Body unit := fun k => (None, k).

(** [if (b) stmt] *)
Definition when (b : bool) (stmt : Body unit) : Body unit :=
  if b then stmt else ret tt.

Notation "x <- m ;; f" := (bind m (fun x => f))
  (at level 61, m at next level, right associativity).
Notation "m ;; f" := (bind m (fun _ => f))
  (at level 61, right associativity).

(** The body of the [while (true)] loop of Strategy A (earlier revision,
    lines 172-205): [Some (bx, by, bz)] when control reaches [break]. *)
Definition brain_candidate : Body (R * R * R) :=
  r <- Math_random ;; let bx  := (r - 0.5) * 2 in
  r <- Math_random ;; let by_ := (r - 0.5) * 2 in
  r <- Math_random ;; let bz  := (r - 0.5) * 2 in
  (* Base ellipsoid *)
  when ((bx*bx) + (by_*by_)*1.4 + (bz*bz)*1.2 >? 1.0) continue ;;
  (* Flatten bottom front *)
  when ((by_ <? -0.2) && (bx >? -0.2))
    (when (by_ <? -0.4) continue ;;
     r <- Math_random ;; when (r >? (by_ + 0.4) * 5) continue) ;;
  (* Cerebellum separation *)
  when ((by_ <? -0.2) && (bx <? -0.2))
    (let distToCerebCenter := sqrt ((bx + 0.5)^2 + (by_ + 0.5)^2 + bz^2) in
     when ((distToCerebCenter >? 0.4) && (distToCerebCenter <? 0.5))
       (r <- Math_random ;; when (r >? 0.1) continue)) ;;
  (* Gyri and sulci *)
  let nx := bx * 12 in
  let ny := by_ * 12 in
  let nz := bz * 12 in
  let noise := sin (nx + cos ny) * cos (ny + sin nz) * sin (nz + cos nx) in
  when (noise >? 0.25) continue ;;
  (* Longitudinal fissure *)
  let fissure := Rabs bz in
  when (fissure <? 0.04) continue ;;
  when (fissure <? 0.08)
    (r <- Math_random ;; when (r >? (fissure - 0.04) * 25) continue) ;;
  ret (bx, by_, bz).

(** The [while (true)] loop: it runs the body until it breaks.  [fuel] bounds
    the number of passes that the model follows; the source has no such
    bound, and [None] means that all [fuel] passes ended in [continue]. *)
Fixpoint brain_loop (fuel : nat) (k : nat) : option ((R * R * R) * nat) :=
  match fuel with
  | O => None
  | S fuel' =>
      match brain_candidate k with
      | (Some c, k') => Some (c, k')
      | (None, k')   => brain_loop fuel' k'
      end
  end.

(** The outcome of pass number [j] of the loop started at call count [k],
    when every pass before it ended in [continue]. *)
Fixpoint nth_pass (j : nat) (k : nat) : option (R * R * R) * nat :=
  match j with
  | O => brain_candidate k
  | S j' => nth_pass j' (snd (brain_candidate k))
  end.

(** [positions] of the earlier revision (lines 150-215), for [count]
    particles: per particle three draws for [random], three for [box], the
    brain loop, the three scaled brain entries and one draw for the offset. *)
Fixpoint positions_A (fuel : nat) (count : nat) (k : nat) : option (Positions * nat) :=
  match count with
  | O => Some (empty_positions, k)
  | S count' =>
      let r0 := (rnd k - 0.5) * 50 in
      let r1 := (rnd (k + 1) - 0.5) * 50 in
      let r2 := (rnd (k + 2) - 0.5) * 50 in
      let b0 := (rnd (k + 3) - 0.5) * 5.1 in
      let b1 := (rnd (k + 4) - 0.5) * 5.1 in
      let b2 := (rnd (k + 5) - 0.5) * 5.1 in
      match brain_loop fuel (k + 6) with
      | None => None
      | Some ((bx, by_, bz), k') =>
          let off := rnd k' * PI * 2 in
          match positions_A fuel count' (S k') with
          | None => None
          | Some (rest, k'') =>
              Some (push (r0, r1, r2) (b0, b1, b2)
                         (bx * 5.5, by_ * 5.0, bz * 4.5) off rest, k'')
          end
      end
  end.

(** [positions] of [src/App.tsx] (lines 236-258): the brain entries are the
    entries of [brainTargets] times [scale = 5.0].  An index past the end of
    [brainTargets] reads 0 here; the caller passes [3 * count] entries. *)
Fixpoint positions_B (brainTargets : list R) (count : nat) (k : nat) : Positions * nat :=
  let scale := 5.0 in
  match count with
  | O => (empty_positions, k)
  | S count' =>
      let r0 := (rnd k - 0.5) * 50 in
      let r1 := (rnd (k + 1) - 0.5) * 50 in
      let r2 := (rnd (k + 2) - 0.5) * 50 in
      let b0 := (rnd (k + 3) - 0.5) * 5.1 in
      let b1 := (rnd (k + 4) - 0.5) * 5.1 in
      let b2 := (rnd (k + 5) - 0.5) * 5.1 in
      let n0 := nth 0 brainTargets 0 * scale in
      let n1 := nth 1 brainTargets 0 * scale in
      let n2 := nth 2 brainTargets 0 * scale in
      let off := rnd (k + 6) * PI * 2 in
      let '(rest, k') := positions_B (skipn 3 brainTargets) count' (k + 7) in
      (push (r0, r1, r2) (b0, b1, b2) (n0, n1, n2) off rest, k')
  end.

End WithRandom.

(** [Math.random()] returns a number in [[0, 1)]. *)
Definition valid_random (rnd : nat -> R) : Prop := forall k, 0 <= rnd k < 1.

(** The tests that a candidate has passed when the loop breaks, as the
    specification lists them. *)
Definition ellipsoid (c : R * R * R) : Prop :=
  let '(x, y, z) := c in x * x + 1.4 * (y * y) + 1.2 * (z * z) <= 1.0.

Definition outside_fissure (c : R * R * R) : Prop :=
  let '(x, y, z) := c in Rabs z >= 0.04.

Definition outside_front_cut (c : R * R * R) : Prop :=
  let '(x, y, z) := c in ~ (y < -0.2 /\ x > -0.2 /\ y < -0.4).

Definition fold_noise (c : R * R * R) : R :=
  let '(x, y, z) := c in
  sin (12 * x + cos (12 * y)) * cos (12 * y + sin (12 * z)) * sin (12 * z + cos (12 * x)).

Definition in_cube (c : R * R * R) : Prop :=
  let '(x, y, z) := c in -1 <= x <= 1 /\ -1 <= y <= 1 /\ -1 <= z <= 1.

(** Within [max] passes the loop of every particle delivers a target,
    whatever [Math.random] returns. *)
Definition bounded_retries (max : nat) : Prop :=
  forall rnd k, valid_random rnd -> exists c k', brain_loop rnd max k = Some (c, k').

(** Two sources of random numbers: one that returns 0 at every call, and one
    whose calls 6, 7 and 8 (the first candidate of the first particle) give
    the point [(-1/12, 0, 1/2)]. *)
Definition stuck : nat -> R := fun _ => 0.

Definition lucky : nat -> R :=
  fun k => match k with
           | 6%nat => 11 / 24
           | 7%nat => 1 / 2
           | 8%nat => 3 / 4
           | _ => 0
           end.

Definition lucky_positions : Positions :=
  match positions_A lucky 1%nat 1%nat 0%nat with
  | Some (P, _) => P
  | None => empty_positions
  end.

End ShapeSampler.

(** ** Strategy B: the mesh-sampling hook [useBrainTargets] *)

Module BrainTargets.

(** A node of the loaded scene graph: whether it is a mesh, its geometry, and
    its children. *)
#[warnings="-register-all"]
Inductive Object3D (Geometry : Type) : Type :=
| Node (isMesh : bool) (geometry : Geometry) (children : list (Object3D Geometry)).

Arguments Node {Geometry} isMesh geometry children.

Definition isMesh {G} (o : Object3D G) : bool := let 'Node m _ _ := o in m.
Definition geometry {G} (o : Object3D G) : G := let 'Node _ g _ := o in g.

(** [scene.traverse]: the callback sees the node, then the nodes below each
    child in turn. *)
Fixpoint traverse {G} (o : Object3D G) : list (Object3D G) :=
  match o with
  | Node _ _ children =>
      o :: (fix each (l : list (Object3D G)) : list (Object3D G) :=
              match l with
              | [] => []
              | c :: l' => traverse c ++ each l'
              end) children
  end.

(** The callback of lines 35-37 keeps the first mesh that it is shown. *)
Definition first_mesh {G} (visited : list (Object3D G)) : option (Object3D G) :=
  fold_left (fun brainMesh o =>
               match brainMesh with
               | None => if isMesh o then Some o else None
               | Some m => Some m
               end) visited None.

Definition no_mesh_warning : string :=
  "No mesh found in brain.glb — falling back to ellipsoid".

Section WithSampler.

Variable Geometry : Type.

(** [MeshSurfaceSampler]: the point that the [i]-th call of [sampler.sample]
    returns for a mesh. *)
Variable sample : Object3D Geometry -> nat -> R * R * R.

(** The [for] loop of lines 52-57, from index [i] on. *)
Fixpoint fill (mesh : Object3D Geometry) (i n : nat) : list R :=
  match n with
  | O => []
  | S n' => let '(x, y, z) := sample mesh i in x :: y :: z :: fill mesh (S i) n'
  end.

(** [useBrainTargets] (lines 30-61): the array returned and the lines
    written with [console.warn]. *)
Definition useBrainTargets (scene : Object3D Geometry) (count : nat)
  : list R * list string :=
  match first_mesh (traverse scene) with
  | None => (repeat 0 (count * 3), [no_mesh_warning])
  | Some brainMesh => (fill brainMesh 0 count, [])
  end.

End WithSampler.

End BrainTargets.

(** ** The box over binary64 numbers ([src/App.tsx], lines 370-376 and
       387-394) *)

Module Binary64.
Import PrimFloat.
Local Open Scope float_scope.
Set Warnings "-inexact-float".

(** [opacity] of [BlackBox]'s [useFrame], in the arithmetic of the code: a
    decimal literal is the nearest double, as in JavaScript. *)
Definition opacity (s : float) : float :=
  if (0.1 <? s) && (s <=? 0.3) then (s - 0.1) / 0.2
  else if (0.3 <? s) && (s <=? 0.4) then 1
  else if (0.4 <? s) && (s <=? 0.5) then 1 - (s - 0.4) / 0.1
  else 0.

(** [scale] of [BlackBox]'s [useFrame]. *)
Definition scale (s : float) : float :=
  if (0.4 <? s) && (s <=? 0.5) then 1 + ((s - 0.4) / 0.1) * 0.8 else 1.

(** What the frame callback writes to a material. *)
Record Material : Type := mkMaterial { material_opacity : float; visible : bool }.

Definition solidMat (s : float) : Material :=
  {| material_opacity := opacity s * 0.95; visible := 0 <? opacity s |}.

Definition wireMat (s : float) : Material :=
  {| material_opacity := opacity s * 0.3; visible := 0 <? opacity s |}.

(** The doubles that the scroll thresholds denote, and three results. *)
Definition s_01 : float := 0.1.
Definition s_03 : float := 0.3.
Definition s_04 : float := 0.4.
Definition s_05 : float := 0.5.
Definition just_below_1 : float := 0.9999999999999999.
Definition two_pow_minus_52 : float := 0x1p-52.
Definition just_below_1_8 : float := 1.7999999999999998.

Set Warnings "+inexact-float".

(** The order of two comparison results: [Lt] if either is, [Gt] if either
    is. *)
Definition weaker (c1 c2 : comparison) : comparison :=
  match c1, c2 with
  | Eq, Eq => Eq
  | Gt, _ | _, Gt => Gt
  | _, _ => Lt
  end.

End Binary64.

(** ** The materials of the box ([src/App.tsx], lines 387-394) *)

Module BlackBoxMaterials.
Import TransformSync.

(** What the frame callback writes to a material. *)
Record Material : Type := mkMaterial { material_opacity : R; visible : bool }.

Definition solidMat (s : R) : Material :=
  {| material_opacity := opacity s * 0.95; visible := opacity s >? 0 |}.

Definition wireMat (s : R) : Material :=
  {| material_opacity := opacity s * 0.3; visible := opacity s >? 0 |}.

End BlackBoxMaterials.

(** ** The rotations of the earlier revision (lines 297-301 and 337-338),
       which has no drag *)

Module EarlierRevision.
Import TransformSync.

Definition particle_rotation (elapsedTime s : R) : Rotation :=
  {| rotation_y := elapsedTime * 0.05 + s * PI * 2;
     rotation_x := s * PI * 0.5 |}.

Definition box_rotation (s : R) : Rotation :=
  {| rotation_y := s * PI * 2;
     rotation_x := s * PI * 0.5 |}.

End EarlierRevision.

(** ** The 2-D background canvas ([NeuralCanvas], [src/App.tsx],
       lines 125-217) *)

Module NeuralCanvas.

(** [class Particle]. *)
Record Particle : Type := mkParticle {
  x : R; y : R; vx : R; vy : R; size : R
}.

(** [mouse], and its value after [mouseout] (and before any [mousemove]). *)
Record Mouse : Type := mkMouse { mouse_x : R; mouse_y : R }.

Definition mouse_away : Mouse := mkMouse (-1000) (-1000).

(** [const count = Math.min(window.innerWidth / 10, 150)]. *)
Definition count (innerWidth : R) : R := Rmin (innerWidth / 10) 150.

(** What is painted: a filled disc by [draw], a line by [drawConnections].
    [rgba(255,255,255,a)] is [White] with [alpha = a], [rgba(255,230,0,a)] is
    [Yellow]. *)
Inductive Ink : Type := White | Yellow.

Record Disc : Type := mkDisc { disc_x : R; disc_y : R; radius : R; fill_alpha : R }.

Record Stroke : Type := mkStroke {
  ink : Ink; alpha : R; lineWidth : R; from_ : R * R; to_ : R * R
}.

Section WithCanvas.

(** [canvas.width] and [canvas.height]. *)
Variables width height : R.

(** The successive results of [Math.random()]. *)
Variable rnd : nat -> R.

(** [new Particle()], from call number [k] on. *)
Definition new_Particle (k : nat) : Particle * nat :=
  ({| x    := rnd k * width;
      y    := rnd (k + 1) * height;
      vx   := (rnd (k + 2) - 0.5) * 0.5;
      vy   := (rnd (k + 3) - 0.5) * 0.5;
      size := rnd (k + 4) * 1.5 + 0.5 |}, (k + 5)%nat).

(** The loop of [resize], [for (let i = 0; i < count; i++)], from [i] on.
    [fuel] bounds the passes that the model follows. *)
Fixpoint push_particles (fuel i : nat) (count : R) (k : nat)
  : option (list Particle * nat) :=
  match fuel with
  | O => if INR i <? count then None else Some ([], k)
  | S fuel' =>
      if INR i <? count then
        let '(p, k1) := new_Particle k in
        match push_particles fuel' (S i) count k1 with
        | Some (ps, k2) => Some (p :: ps, k2)
        | None => None
        end
      else Some ([], k)
  end.

(** [update()]. *)
Definition update (p : Particle) : Particle :=
  let p := mkParticle (x p + vx p) (y p) (vx p) (vy p) (size p) in
  let p := mkParticle (x p) (y p + vy p) (vx p) (vy p) (size p) in
  let p := if (x p <? 0) || (x p >? width)
           then mkParticle (x p) (y p) (vx p * -1) (vy p) (size p) else p in
  let p := if (y p <? 0) || (y p >? height)
           then mkParticle (x p) (y p) (vx p) (vy p * -1) (size p) else p in
  p.

(** [draw()]. *)
Definition draw (p : Particle) : Disc :=
  {| disc_x := x p; disc_y := y p; radius := size p; fill_alpha := 0.4 |}.

End WithCanvas.

(** The inner loop of [drawConnections]: the lines from particle [p] to the
    particles after it. *)
Fixpoint links (p : Particle) (rest : list Particle) : list Stroke :=
  match rest with
  | [] => []
  | q :: rest' =>
      let dx := x p - x q in
      let dy := y p - y q in
      let d  := sqrt (dx*dx + dy*dy) in
      (if d <? 150
       then [mkStroke White (0.15 * (1 - d / 150)) 0.5 (x p, y p) (x q, y q)]
       else [])
      ++ links p rest'
  end.

(** The second half of a pass of the outer loop: the line to the mouse and
    the pull towards it. *)
Definition mouse_link (mouse : Mouse) (p : Particle) : list Stroke * Particle :=
  let dxM := x p - mouse_x mouse in
  let dyM := y p - mouse_y mouse in
  let dM  := sqrt (dxM*dxM + dyM*dyM) in
  if dM <? 250
  then ([mkStroke Yellow (0.6 * (1 - dM / 250)) 1.5 (x p, y p)
                  (mouse_x mouse, mouse_y mouse)],
        mkParticle (x p - dxM * 0.015) (y p - dyM * 0.015) (vx p) (vy p) (size p))
  else ([], p).

(** [drawConnections]: the lines painted, in order, and the particles as it
    leaves them.  Pass [i] reads only particles [i] and later, and moves
    particle [i] last. *)
Fixpoint drawConnections (mouse : Mouse) (particles : list Particle)
  : list Stroke * list Particle :=
  match particles with
  | [] => ([], [])
  | p :: rest =>
      let inner := links p rest in
      let '(toMouse, p') := mouse_link mouse p in
      let '(later, rest') := drawConnections mouse rest in
      (inner ++ toMouse ++ later, p' :: rest')
  end.

(** One pass of [animate]: every particle is updated and drawn, then the
    connections are drawn. *)
Definition animate (width height : R) (mouse : Mouse) (particles : list Particle)
  : list Disc * list Stroke * list Particle :=
  let particles := map (update width height) particles in
  let discs := map draw particles in
  let '(strokes, particles) := drawConnections mouse particles in
  (discs, strokes, particles).

(** The particles after [n] passes of [animate] with the mouse at rest. *)
Fixpoint animate_n (n : nat) (width height : R) (mouse : Mouse)
    (particles : list Particle) : list Particle :=
  match n with
  | O => particles
  | S n' => animate_n n' width height mouse
              (snd (animate width height mouse particles))
  end.

(** [update] alone, [n] times. *)
Definition update_n (n : nat) (width height : R) (p : Particle) : Particle :=
  Nat.iter n (update width height) p.

(** A particle as the constructor leaves it on a [width] by [height]
    canvas. *)
Definition fresh (width height : R) (p : Particle) : Prop :=
  0 <= x p <= width /\ 0 <= y p <= height /\
  Rabs (vx p) <= 0.25 /\ Rabs (vy p) <= 0.25 /\
  0.5 <= size p < 2.

(** A coordinate [c] moving by [v] per step is within [[0, limit]] now, or
    will be after the next step. *)
Definition near (limit c v : R) : Prop :=
  0 <= c <= limit \/ 0 <= c + v <= limit.

(** [q] has the speed along each axis and the size of [p]. *)
Definition same_motion (p q : Particle) : Prop :=
  Rabs (vx q) = Rabs (vx p) /\ Rabs (vy q) = Rabs (vy p) /\ size q = size p.

(** A line as [drawConnections] paints it towards a mouse at [mouse]. *)
Definition well_formed_stroke (mouse : Mouse) (s : Stroke) : Prop :=
  match ink s with
  | White  => 0 < alpha s <= 0.15 /\ lineWidth s = 0.5
  | Yellow => 0 < alpha s <= 0.6 /\ lineWidth s = 1.5 /\
              to_ s = (mouse_x mouse, mouse_y mouse)
  end.

End NeuralCanvas.

(** ** Counting the calls of [Math.random] *)

Module Draws.
Import ShapeSampler.

(** [m] makes at most [n] calls of [Math.random]. *)
Definition uses {A} (m : Body A) (n : nat) : Prop :=
  forall k, (k <= snd (m k) <= k + n)%nat.

End Draws.

(** [v] lies in [[lo, hi]]. *)
Definition within (lo hi : R) (v : R) : Prop := lo <= v <= hi.

(** The largest phase offset that a store into a [Float32Array] can leave:
    [2 * PI] and the relative rounding of the store. *)
Definition offset_bound : R := 2 * PI * (1 + 1e-7).

(** ** Sessions of the drag controller *)

Module DragSessions.
Import DragController.

(** The events that can reach [drag] between a press and the release. *)
Definition during_drag (ev : Event) : bool :=
  match ev with
  | PointerMove _ | Frame => true
  | PointerDown _ | PointerUp => false
  end.

(** [clientX] of the last move among [evs], [x0] when there is none. *)
Definition last_clientX (x0 : R) (evs : list Event) : R :=
  fold_left (fun x ev => match ev with PointerMove e => clientX e | _ => x end) evs x0.

(** What lines 117-120 of [advanceDragInertia] do to one velocity. *)
Definition decay (v : R) : R :=
  if Rabs (v * DAMPING) <? 1e-5 then 0 else v * DAMPING.

(** A right-button mouse press, and a touch. *)
Definition right_click : PointerEvent := mkPointerEvent "mouse" 2 10 10.
Definition touch_at (cx cy : R) : PointerEvent := mkPointerEvent "touch" 0 cx cy.

End DragSessions.

(* ================================================================== *)
(** * Part II.  Properties                                              *)
(* ================================================================== *)

(** ** Comparisons *)

Lemma Rltb_true (a b : R) : (a <? b) = true <-> a < b.
Proof. unfold Rltb; destruct (Rlt_dec a b); split; intros; try discriminate; tauto. Qed.

Lemma Rltb_false (a b : R) : (a <? b) = false <-> b <= a.
Proof.
  unfold Rltb; destruct (Rlt_dec a b); split; intros; try discriminate; try lra; auto.
Qed.

Lemma Rleb_true (a b : R) : (a <=? b) = true <-> a <= b.
Proof. unfold Rleb; destruct (Rle_dec a b); split; intros; try discriminate; tauto. Qed.

Lemma Rleb_false (a b : R) : (a <=? b) = false <-> b < a.
Proof.
  unfold Rleb; destruct (Rle_dec a b); split; intros; try discriminate; try lra; auto.
Qed.

(** Decide every comparison in sight and keep the order facts. *)
Ltac cmp :=
  repeat match goal with
  | |- context [Rltb ?a ?b] =>
      let H := fresh "C" in
      destruct (Rltb a b) eqn:H;
      [apply Rltb_true in H | apply Rltb_false in H]
  | |- context [Rleb ?a ?b] =>
      let H := fresh "C" in
      destruct (Rleb a b) eqn:H;
      [apply Rleb_true in H | apply Rleb_false in H]
  end.

(** ** DragController *)

(** Reduce field reads of updated records. *)
Ltac drag_fields :=
  cbv zeta;
  unfold DragController.set_yaw, DragController.set_pitch,
         DragController.set_velYaw, DragController.set_velPitch,
         DragController.set_active, DragController.set_lastX,
         DragController.set_lastY;
  cbn [DragController.yaw DragController.pitch DragController.velYaw
       DragController.velPitch DragController.active DragController.lastX
       DragController.lastY].

Import DragController.

Lemma PITCH_LIMIT_pos : 0 < PITCH_LIMIT.
Proof. unfold PITCH_LIMIT. pose proof PI_RGT_0. lra. Qed.

Lemma clamp_pitch_in_range (v : R) :
  - PITCH_LIMIT <= Rmax (- PITCH_LIMIT) (Rmin PITCH_LIMIT v) <= PITCH_LIMIT.
Proof.
  pose proof PITCH_LIMIT_pos.
  split.
  - apply Rmax_l.
  - apply Rmax_lub; [lra | apply Rmin_l].
Qed.

Lemma onMove_pitch_in_range e d : pitch_in_range d -> pitch_in_range (onMove e d).
Proof.
  unfold pitch_in_range, onMove. intros H.
  destruct (active d); simpl; [apply clamp_pitch_in_range | exact H].
Qed.

Lemma advanceDragInertia_pitch d : 
  pitch (advanceDragInertia d) =
  if active d then pitch d
  else Rmax (- PITCH_LIMIT) (Rmin PITCH_LIMIT (pitch d + velPitch d)).
Proof.
  unfold advanceDragInertia. destruct (active d); [reflexivity|].
  cbv zeta. cmp; reflexivity.
Qed.

Lemma advanceDragInertia_yaw d :
  yaw (advanceDragInertia d) = if active d then yaw d else yaw d + velYaw d.
Proof.
  unfold advanceDragInertia. destruct (active d); [reflexivity|].
  drag_fields. cmp; reflexivity.
Qed.

Lemma advanceDragInertia_pitch_in_range d :
  pitch_in_range d -> pitch_in_range (advanceDragInertia d).
Proof.
  unfold pitch_in_range. rewrite advanceDragInertia_pitch. intros H.
  destruct (active d); [exact H | apply clamp_pitch_in_range].
Qed.

Lemma startDrag_pitch e d : pitch (startDrag e d) = pitch d.
Proof. unfold startDrag. destruct (_ && _); reflexivity. Qed.

Lemma step_pitch_in_range d ev : pitch_in_range d -> pitch_in_range (step d ev).
Proof.
  destruct ev; simpl; intros H.
  - unfold pitch_in_range. rewrite startDrag_pitch. exact H.
  - now apply onMove_pitch_in_range.
  - exact H.
  - now apply advanceDragInertia_pitch_in_range.
Qed.

Lemma run_pitch_in_range evs : forall d, pitch_in_range d -> pitch_in_range (run evs d).
Proof.
  unfold run. induction evs as [|ev evs IH]; simpl; intros d H; [exact H|].
  apply IH, step_pitch_in_range, H.
Qed.

(** C7.  From the initial [drag], after any sequence of pointer-down,
    pointer-move (with any coordinates), pointer-up events and per-frame
    inertia steps, [pitch] lies in [[-0.45 * PI, 0.45 * PI]]. *)
Theorem pitch_always_within_limit (evs : list Event) :
  - (0.45 * PI) <= pitch (run evs drag) <= 0.45 * PI.
Proof.
  assert (H : pitch_in_range (run evs drag)).
  { apply run_pitch_in_range. unfold pitch_in_range; simpl.
    pose proof PITCH_LIMIT_pos. lra. }
  unfold pitch_in_range, PITCH_LIMIT in H. lra.
Qed.


(** *** Inertia after a 100-pixel move *)

Lemma frames_S n d : frames (S n) d = advanceDragInertia (frames n d).
Proof. reflexivity. Qed.

Lemma advanceDragInertia_idle d :
  active d = false ->
  active (advanceDragInertia d) = false /\
  velYaw (advanceDragInertia d) =
    if Rabs (velYaw d * DAMPING) <? 1e-5 then 0 else velYaw d * DAMPING.
Proof.
  intros Hidle. unfold advanceDragInertia. rewrite Hidle. drag_fields.
  cmp; drag_fields; auto.
Qed.

Lemma frames_idle n d : active d = false -> active (frames n d) = false.
Proof.
  intros H. induction n as [|n IH]; [exact H|].
  rewrite frames_S. now apply advanceDragInertia_idle.
Qed.

Lemma pow_09_antitone n m : (n <= m)%nat -> 0.9 ^ m <= 0.9 ^ n.
Proof.
  induction 1 as [|m _ IH]; [lra|].
  simpl. assert (0 < 0.9 ^ m) by (apply pow_lt; lra). lra.
Qed.

Lemma decay_threshold : 0.4 * 0.9 ^ 100 >= 1e-5 /\ 0.4 * 0.9 ^ 101 < 1e-5.
Proof. split; lra. Qed.

Lemma coasting_decay d :
  active d = false -> velYaw d = 0.4 ->
  forall n, (n <= 100)%nat -> velYaw (frames n d) = 0.4 * 0.9 ^ n.
Proof.
  intros Hidle Hv n. induction n as [|n IH]; intros Hn.
  - simpl. lra.
  - rewrite frames_S.
    destruct (advanceDragInertia_idle (frames n d) (frames_idle n d Hidle)) as [_ ->].
    rewrite IH by lia. unfold DAMPING.
    assert (Hlow : 0.4 * 0.9 ^ S n >= 1e-5).
    { pose proof (pow_09_antitone (S n) 100 Hn). pose proof decay_threshold. lra. }
    simpl in Hlow |- *.
    cmp; [|lra].
    rewrite Rabs_pos_eq in C by lra. lra.
Qed.

Lemma coasting_rest d :
  active d = false -> velYaw d = 0 -> forall n, velYaw (frames n d) = 0.
Proof.
  intros Hidle Hv n. induction n as [|n IH]; [exact Hv|].
  rewrite frames_S.
  destruct (advanceDragInertia_idle (frames n d) (frames_idle n d Hidle)) as [_ ->].
  rewrite IH. cmp; [reflexivity | lra].
Qed.

Lemma frames_add n m d : frames (n + m) d = frames n (frames m d).
Proof. unfold frames. apply Nat.iter_add. Qed.

Lemma coasting_snap d :
  active d = false -> velYaw d = 0.4 ->
  forall n, (101 <= n)%nat -> velYaw (frames n d) = 0.
Proof.
  intros Hidle Hv n Hn.
  replace n with ((n - 101) + 101)%nat by lia. rewrite frames_add.
  apply coasting_rest; [now apply frames_idle|].
  change 101%nat with (S 100). rewrite frames_S.
  destruct (advanceDragInertia_idle (frames 100 d) (frames_idle 100 d Hidle)) as [_ ->].
  rewrite (coasting_decay d Hidle Hv 100) by lia. unfold DAMPING.
  cmp; [reflexivity|].
  pose proof decay_threshold as [_ Hlt]. simpl in Hlt.
  assert (0 < 0.9 ^ 100) by (apply pow_lt; lra).
  rewrite Rabs_pos_eq in C by lra. lra.
Qed.

Lemma onMove_100 e d :
  active d = true -> clientX e - lastX d = 100 ->
  velYaw (onMove e d) = 0.4 /\ active (onUp (onMove e d)) = false /\
  velYaw (onUp (onMove e d)) = 0.4.
Proof.
  intros Ha Hdx. unfold onMove, onUp. rewrite Ha. simpl.
  rewrite Hdx. unfold DRAG_SENS. repeat split; lra.
Qed.

(** C6 (amended).  A pointer-move 100 pixels to the right during an active
    drag leaves [velYaw] at exactly 0.4; after the release, [n] idle frames
    leave [velYaw] at [0.4 * 0.9 ^ n] for every [n <= 100] and at exactly 0
    for every [n >= 101]: the magnitude is still at least 1e-5 at frame 100
    and would fall below it at frame 101. *)
Theorem velYaw_after_100px_move (e : PointerEvent) (d : Drag) :
  active d = true ->
  clientX e - lastX d = 100 ->
  velYaw (onMove e d) = 0.4 /\
  (forall n, velYaw (frames n (onUp (onMove e d))) =
             if (n <=? 100)%nat then 0.4 * 0.9 ^ n else 0) /\
  0.4 * 0.9 ^ 100 >= 1e-5 /\ 0.4 * 0.9 ^ 101 < 1e-5.
Proof.
  intros Ha Hdx.
  destruct (onMove_100 e d Ha Hdx) as (Hv & Hidle & Hv').
  split; [exact Hv|]. split; [|exact decay_threshold].
  intros n. destruct (Nat.leb_spec n 100).
  - now apply coasting_decay.
  - apply coasting_snap; auto.
Qed.

Lemma velYaw_after_100px_move_witness :
  velYaw (onMove move_right_100 (startDrag press_origin drag)) = 0.4 /\
  velYaw (frames 101 flicked) = 0.
Proof.
  assert (Ha : active (startDrag press_origin drag) = true) by reflexivity.
  assert (Hdx : clientX move_right_100 - lastX (startDrag press_origin drag) = 100)
    by (simpl; lra).
  destruct (velYaw_after_100px_move _ _ Ha Hdx) as (Hv & Hn & _).
  split; [exact Hv | exact (Hn 101%nat)].
Defined.

(** C6, as stated, fails: the velocity left by the 100-pixel move is already
    exactly 0 after 101 idle frames, so it does not follow [0.4 * 0.9 ^ n]
    up to a frame near 131. *)
Lemma velYaw_snaps_at_101_not_131 :
  snaps_at flicked 101 /\ ~ snaps_at flicked 131.
Proof.
  assert (Ha : active (startDrag press_origin drag) = true) by reflexivity.
  assert (Hdx : clientX move_right_100 - lastX (startDrag press_origin drag) = 100)
    by (simpl; lra).
  destruct (onMove_100 _ _ Ha Hdx) as (_ & Hidle & Hv).
  fold flicked in Hidle, Hv.
  split.
  - split.
    + intros n Hn. apply coasting_decay; auto. lia.
    + apply coasting_snap; auto.
  - intros [Hdecay _].
    specialize (Hdecay 101%nat ltac:(lia)).
    rewrite (coasting_snap flicked Hidle Hv 101) in Hdecay by lia.
    assert (0 < 0.9 ^ 101) by (apply pow_lt; lra). lra.
Qed.

(** *** Pointer-down *)

Lemma advanceDragInertia_active d : active d = true -> advanceDragInertia d = d.
Proof. intros H. unfold advanceDragInertia. now rewrite H. Qed.

Lemma frames_active n d : active d = true -> frames n d = d.
Proof.
  intros H. induction n as [|n IH]; [reflexivity|].
  rewrite frames_S, IH. now apply advanceDragInertia_active.
Qed.

Lemma startDrag_orientation e d :
  yaw (startDrag e d) = yaw d /\ pitch (startDrag e d) = pitch d /\
  velYaw (startDrag e d) = velYaw d /\ velPitch (startDrag e d) = velPitch d.
Proof. unfold startDrag. destruct (_ && _); repeat split. Qed.

Lemma startDrag_accepted e d :
  pointerType e <> "mouse"%string \/ button e = 0%Z ->
  startDrag e d = set_lastY (clientY e) (set_lastX (clientX e) (set_active true d)).
Proof.
  intros H. unfold startDrag.
  destruct (String.eqb_spec (pointerType e) "mouse");
    destruct (Z.eqb_spec (button e) 0); simpl; try reflexivity.
  destruct H; contradiction.
Qed.

Lemma frozen_then_released d n :
  active d = true ->
  frames n d = d /\
  let released := onUp (frames n d) in
  yaw released = yaw d /\ pitch released = pitch d /\
  velYaw released = velYaw d /\ velPitch released = velPitch d /\
  yaw (advanceDragInertia released) = yaw d + velYaw d /\
  pitch (advanceDragInertia released) =
    Rmax (- PITCH_LIMIT) (Rmin PITCH_LIMIT (pitch d + velPitch d)).
Proof.
  intros Ha. rewrite (frames_active n _ Ha). split; [reflexivity|].
  cbv zeta. unfold onUp. drag_fields. repeat split.
  - unfold advanceDragInertia. drag_fields. cmp; drag_fields; reflexivity.
  - rewrite advanceDragInertia_pitch. drag_fields. reflexivity.
Qed.

(** C10.  [startDrag] leaves [yaw], [pitch], [velYaw] and [velPitch] as they
    were.  A press of the primary mouse button, or any press of a touch or a
    pen, makes the drag active and records the pointer position; from then
    on any number of frames leaves the whole state unchanged, and after the
    release the state carries the orientation and the velocities from
    before the press: the next frame advances [yaw] by the old [velYaw] and
    [pitch] by the old [velPitch] (clamped).  A press of another mouse
    button changes nothing; and whenever the drag is active after a press,
    the same freeze and resumption hold. *)
Theorem startDrag_keeps_orientation_and_velocity (e : PointerEvent) (d : Drag) (n : nat) :
  (yaw (startDrag e d) = yaw d /\ pitch (startDrag e d) = pitch d /\
   velYaw (startDrag e d) = velYaw d /\ velPitch (startDrag e d) = velPitch d) /\
  (pointerType e <> "mouse"%string \/ button e = 0%Z ->
     active (startDrag e d) = true /\
     lastX (startDrag e d) = clientX e /\ lastY (startDrag e d) = clientY e /\
     frames n (startDrag e d) = startDrag e d /\
     let released := onUp (frames n (startDrag e d)) in
     yaw released = yaw d /\ pitch released = pitch d /\
     velYaw released = velYaw d /\ velPitch released = velPitch d /\
     yaw (advanceDragInertia released) = yaw d + velYaw d /\
     pitch (advanceDragInertia released) =
       Rmax (- PITCH_LIMIT) (Rmin PITCH_LIMIT (pitch d + velPitch d))) /\
  (pointerType e = "mouse"%string -> button e <> 0%Z -> startDrag e d = d) /\
  (active (startDrag e d) = true ->
     frames n (startDrag e d) = startDrag e d /\
     let released := onUp (frames n (startDrag e d)) in
     yaw released = yaw d /\ pitch released = pitch d /\
     velYaw released = velYaw d /\ velPitch released = velPitch d /\
     yaw (advanceDragInertia released) = yaw d + velYaw d /\
     pitch (advanceDragInertia released) =
       Rmax (- PITCH_LIMIT) (Rmin PITCH_LIMIT (pitch d + velPitch d))).
Proof.
  pose proof (startDrag_orientation e d) as (Hy & Hp & Hvy & Hvp).
  assert (Hfreeze : active (startDrag e d) = true ->
     frames n (startDrag e d) = startDrag e d /\
     let released := onUp (frames n (startDrag e d)) in
     yaw released = yaw d /\ pitch released = pitch d /\
     velYaw released = velYaw d /\ velPitch released = velPitch d /\
     yaw (advanceDragInertia released) = yaw d + velYaw d /\
     pitch (advanceDragInertia released) =
       Rmax (- PITCH_LIMIT) (Rmin PITCH_LIMIT (pitch d + velPitch d))).
  { intros Ha. pose proof (frozen_then_released (startDrag e d) n Ha) as H.
    cbv zeta in H |- *. rewrite Hy, Hp, Hvy, Hvp in H. exact H. }
  split; [auto|]. split; [|split; [|exact Hfreeze]].
  - intros Hacc.
    assert (Ha : active (startDrag e d) = true)
      by (rewrite (startDrag_accepted e d Hacc); reflexivity).
    split; [exact Ha|].
    split; [rewrite (startDrag_accepted e d Hacc); reflexivity|].
    split; [rewrite (startDrag_accepted e d Hacc); reflexivity|].
    exact (Hfreeze Ha).
  - intros Ht Hb. unfold startDrag. rewrite Ht. simpl.
    destruct (Z.eqb_spec (button e) 0); [contradiction | reflexivity].
Qed.

Lemma startDrag_keeps_orientation_and_velocity_witness :
  let touch := mkPointerEvent "touch" 1 3 4 in
  active (startDrag touch flicked) = true /\
  frames 5 (startDrag touch flicked) = startDrag touch flicked /\
  velYaw (onUp (frames 5 (startDrag touch flicked))) = velYaw flicked /\
  frames 5 (startDrag press_origin flicked) = startDrag press_origin flicked.
Proof.
  intros touch.
  assert (Htouch : pointerType touch <> "mouse"%string \/ button touch = 0%Z)
    by (left; discriminate).
  assert (Hmouse : pointerType press_origin <> "mouse"%string \/
                   button press_origin = 0%Z) by (right; reflexivity).
  pose proof (startDrag_keeps_orientation_and_velocity touch flicked 5) as Ht.
  pose proof (startDrag_keeps_orientation_and_velocity press_origin flicked 5) as Hm.
  apply proj2, proj1 in Ht. apply proj2, proj1 in Hm.
  specialize (Ht Htouch). specialize (Hm Hmouse).
  destruct Ht as (Ha & _ & _ & Hfrozen & _ & _ & Hvel & _).
  destruct Hm as (_ & _ & _ & Hfrozen' & _).
  split; [exact Ha|]. split; [exact Hfrozen|]. split; [exact Hvel | exact Hfrozen'].
Defined.

(** ** TransformSync *)

Import TransformSync.

(** C3.  The frame rendered one second into the session, with no scroll and
    an untouched [drag]: the particle group is turned by 0.05 about the
    vertical axis and the box by 0, so the two rotations differ, although
    the box is meant to mirror the particle group exactly. *)
Theorem box_rotation_lacks_spin_at_1s :
  let out := fst (render_frame 1 0 drag) in
  rotation_y (particles_rot out) = 0.05 /\
  rotation_y (box_rot out) = 0 /\
  box_rot out <> particles_rot out.
Proof.
  cbv zeta. unfold render_frame, particle_rotation, box_rotation.
  cbn [fst particles_rot box_rot rotation_y].
  rewrite advanceDragInertia_yaw. cbn [active yaw velYaw drag].
  split; [lra|]. split; [lra|].
  intros H. apply (f_equal rotation_y) in H. cbn [rotation_y] in H. lra.
Qed.

(** On every frame both objects read the same [drag], after this frame's
    inertia step.  The box is turned by [s * 2 * PI + yaw] about the
    vertical axis and by [s * PI / 2 + pitch] about the horizontal one; the
    tilt of the particle group is the same, its turn about the vertical axis
    is larger by the time-driven spin [0.05 * elapsedTime], so the two
    rotations are equal exactly when [elapsedTime = 0]. *)
Lemma box_rotation_is_particle_rotation_without_spin (elapsedTime s : R) (d : Drag) :
  let out := fst (render_frame elapsedTime s d) in
  let d' := snd (render_frame elapsedTime s d) in
  d' = advanceDragInertia d /\
  rotation_y (box_rot out) = s * 2 * PI + yaw d' /\
  rotation_x (box_rot out) = s * PI / 2 + pitch d' /\
  rotation_x (particles_rot out) = rotation_x (box_rot out) /\
  rotation_y (particles_rot out) = rotation_y (box_rot out) + 0.05 * elapsedTime /\
  (box_rot out = particles_rot out <-> elapsedTime = 0).
Proof.
  cbv zeta. unfold render_frame. simpl.
  repeat split; try lra.
  - intros H. injection H. intros. lra.
  - intros ->. unfold box_rotation, particle_rotation. f_equal. lra.
Qed.

(** *** Opacity of the box *)

Lemma opacity_cases (s : R) :
  (s <= 0.1 /\ opacity s = 0) \/
  (0.1 < s <= 0.3 /\ opacity s = (s - 0.1) / 0.2) \/
  (0.3 < s <= 0.4 /\ opacity s = 1) \/
  (0.4 < s <= 0.5 /\ opacity s = 1 - (s - 0.4) / 0.1) \/
  (0.5 < s /\ opacity s = 0).
Proof.
  unfold opacity. cmp; simpl; try lra.
  all: first [ left; split; [lra | reflexivity]
             | right; left; split; [lra | reflexivity]
             | right; right; left; split; [lra | reflexivity]
             | right; right; right; left; split; [lra | reflexivity]
             | right; right; right; right; split; [lra | reflexivity] ].
Qed.



(** *** The order of doubles *)

Section DoubleOrder.
Import SpecFloat FloatOps FloatAxioms.
Import Binary64.

Ltac compare_cases :=
  repeat match goal with
  | H : context [Z.compare ?a ?b] |- _ => destruct (Z.compare_spec a b)
  | |- context [Z.compare ?a ?b] => destruct (Z.compare_spec a b)
  | H : context [Pos.compare ?a ?b] |- _ => destruct (Pos.compare_spec a b)
  | |- context [Pos.compare ?a ?b] => destruct (Pos.compare_spec a b)
  end.

Lemma SFcompare_antisym x y : SFcompare y x = option_map CompOpp (SFcompare x y).
Proof.
  destruct x as [[]|[]| |[] mx ex], y as [[]|[]| |[] my ey]; try reflexivity;
    cbn [SFcompare option_map]; f_equal;
    change (Pos.compare_cont Eq) with Pos.compare;
    rewrite (Z.compare_antisym ex ey), (Pos.compare_antisym mx my);
    destruct (ex ?= ey)%Z, (mx ?= my)%positive; reflexivity.
Qed.

Lemma SFcompare_trans x y z c1 c2 :
  SFcompare x y = Some c1 -> SFcompare y z = Some c2 ->
  c1 <> Gt -> c2 <> Gt -> SFcompare x z = Some (weaker c1 c2).
Proof.
  destruct x as [[]|[]| |[] mx ex], y as [[]|[]| |[] my ey], z as [[]|[]| |[] mz ez];
    cbn [SFcompare]; intros H1 H2 N1 N2;
    try discriminate;
    injection H1 as <-; injection H2 as <-;
    try congruence; try reflexivity;
    change (Pos.compare_cont Eq) with Pos.compare in *;
    f_equal; compare_cases; subst; cbn in *; try congruence; try lia.
Qed.

Lemma ltb_compare x y :
  PrimFloat.ltb x y = true <-> SFcompare (Prim2SF x) (Prim2SF y) = Some Lt.
Proof.
  rewrite ltb_spec. unfold SFltb.
  destruct (SFcompare (Prim2SF x) (Prim2SF y)) as [[]|]; split; congruence.
Qed.

Lemma leb_compare x y :
  PrimFloat.leb x y = true <->
  exists c, SFcompare (Prim2SF x) (Prim2SF y) = Some c /\ c <> Gt.
Proof.
  rewrite leb_spec. unfold SFleb.
  destruct (SFcompare (Prim2SF x) (Prim2SF y)) as [[]|]; split;
    try discriminate; try reflexivity.
  - exists Eq. split; congruence.
  - exists Lt. split; congruence.
  - intros (c & H & N). congruence.
  - intros (c & H & N). congruence.
Qed.

Lemma f64_lt_le x y : PrimFloat.ltb x y = true -> PrimFloat.leb x y = true.
Proof.
  rewrite ltb_compare, leb_compare. intros H. exists Lt. split; congruence.
Qed.

Lemma f64_lt_not_le x y : PrimFloat.ltb x y = true -> PrimFloat.leb y x = false.
Proof.
  rewrite ltb_compare, leb_spec. unfold SFleb. intros H.
  now rewrite (SFcompare_antisym (Prim2SF x) (Prim2SF y)), H.
Qed.

Lemma f64_le_not_lt x y : PrimFloat.leb x y = true -> PrimFloat.ltb y x = false.
Proof.
  rewrite leb_compare, ltb_spec. unfold SFltb. intros (c & H & N).
  rewrite (SFcompare_antisym (Prim2SF x) (Prim2SF y)), H.
  destruct c; [reflexivity | reflexivity | congruence].
Qed.

Lemma f64_lt_trans x y z :
  PrimFloat.ltb x y = true -> PrimFloat.ltb y z = true -> PrimFloat.ltb x z = true.
Proof.
  rewrite !ltb_compare. intros H1 H2.
  now rewrite (SFcompare_trans _ _ _ _ _ H1 H2) by discriminate.
Qed.

Lemma f64_le_trans x y z :
  PrimFloat.leb x y = true -> PrimFloat.leb y z = true -> PrimFloat.leb x z = true.
Proof.
  rewrite !leb_compare. intros (c1 & H1 & N1) (c2 & H2 & N2).
  exists (weaker c1 c2). split; [exact (SFcompare_trans _ _ _ _ _ H1 H2 N1 N2)|].
  destruct c1, c2; simpl; congruence.
Qed.



End DoubleOrder.

(** *** The opacity in the arithmetic of the code *)

Section Opacity64.
Import PrimFloat.

Set Warnings "-inexact-float".





Set Warnings "+inexact-float".

End Opacity64.

(** ** MorphEngine *)

Import MorphEngine.

Lemma clamp_range x : 0 <= clamp x 0 1 <= 1.
Proof.
  unfold clamp. split.
  - apply Rmin_glb; [apply Rmax_r | lra].
  - apply Rmin_r.
Qed.

Lemma clamp_below x : x <= 0 -> clamp x 0 1 = 0.
Proof.
  intros H. unfold clamp. rewrite Rmax_right by exact H. apply Rmin_left. lra.
Qed.

Lemma clamp_above x : 1 <= x -> clamp x 0 1 = 1.
Proof.
  intros H. unfold clamp. rewrite Rmax_left by lra. now apply Rmin_right.
Qed.

Lemma clamp_monotone x y : x <= y -> clamp x 0 1 <= clamp y 0 1.
Proof.
  intros H. unfold clamp.
  apply Rle_min_compat_r, Rle_max_compat_r, H.
Qed.

(** The cubic [t * t * (3 - 2 * t)] does not decrease on [[0, 1]]. *)
Lemma hermite_monotone u v :
  0 <= u -> u <= v -> v <= 1 -> u * u * (3 - 2 * u) <= v * v * (3 - 2 * v).
Proof.
  intros H0 Huv H1.
  assert (E : v * v * (3 - 2 * v) - u * u * (3 - 2 * u) =
              (v - u) * (3 * (u + v) - 2 * (u * u + u * v + v * v))) by ring.
  assert (0 <= 3 * (u + v) - 2 * (u * u + u * v + v * v)) by nra.
  assert (0 <= (v - u) * (3 * (u + v) - 2 * (u * u + u * v + v * v)))
    by (apply Rmult_le_pos; lra).
  lra.
Qed.

Lemma ratio_monotone a b x y : a < b -> x <= y -> (x - a) / (b - a) <= (y - a) / (b - a).
Proof.
  intros Hab Hxy. unfold Rdiv.
  apply Rmult_le_compat_r; [|lra].
  left. apply Rinv_0_lt_compat. lra.
Qed.

Lemma ratio_at_a a b : a < b -> (a - a) / (b - a) = 0.
Proof. intros. unfold Rdiv. ring. Qed.

Lemma ratio_at_b a b : a < b -> (b - a) / (b - a) = 1.
Proof. intros. unfold Rdiv. apply Rinv_r. lra. Qed.

Lemma smoothstep_below a b x : a < b -> x <= a -> smoothstep a b x = 0.
Proof.
  intros Hab Hx. unfold smoothstep.
  rewrite clamp_below; [ring|].
  rewrite <- (ratio_at_a a b Hab). now apply ratio_monotone.
Qed.

Lemma smoothstep_above a b x : a < b -> b <= x -> smoothstep a b x = 1.
Proof.
  intros Hab Hx. unfold smoothstep.
  rewrite clamp_above; [ring|].
  rewrite <- (ratio_at_b a b Hab). now apply ratio_monotone.
Qed.

(** C9.  For [a < b], [smoothstep a b] is exactly 0 at every [x <= a],
    exactly 1 at every [x >= b], and does not decrease on [[a, b]]. *)
Theorem smoothstep_monotone_with_exact_ends (a b : R) :
  a < b ->
  (forall x, x <= a -> smoothstep a b x = 0) /\
  (forall x, b <= x -> smoothstep a b x = 1) /\
  (forall x y, a <= x -> x <= y -> y <= b -> smoothstep a b x <= smoothstep a b y).
Proof.
  intros Hab. repeat split.
  - intros x Hx. now apply smoothstep_below.
  - intros x Hx. now apply smoothstep_above.
  - intros x y _ Hxy _. unfold smoothstep. cbv zeta.
    apply hermite_monotone.
    + apply clamp_range.
    + apply clamp_monotone. now apply ratio_monotone.
    + apply clamp_range.
Qed.

Lemma smoothstep_monotone_with_exact_ends_witness :
  smoothstep 0.1 0.3 0.05 = 0 /\ smoothstep 0.1 0.3 0.3 = 1 /\
  smoothstep 0.1 0.3 0.15 <= smoothstep 0.1 0.3 0.25.
Proof.
  assert (Hab : 0.1 < 0.3) by lra.
  destruct (smoothstep_monotone_with_exact_ends 0.1 0.3 Hab) as (H0 & H1 & Hm).
  repeat split; [apply H0 | apply H1 | apply Hm]; lra.
Defined.

(** *** The blend at [s = 0.3] and [s = 0.7] *)

Lemma mix_0 u v : mix u v 0 = u.
Proof. unfold mix. ring. Qed.

Lemma mix_1 u v : mix u v 1 = v.
Proof. unfold mix. ring. Qed.

Lemma mix3_0 u v : mix3 u v 0 = u.
Proof. destruct u. unfold mix3. simpl. now rewrite !mix_0. Qed.

Lemma mix3_1 u v : mix3 u v 1 = v.
Proof. destruct v. unfold mix3. simpl. now rewrite !mix_1. Qed.

Lemma weights_at_03 v : uScroll v = 0.3 -> t1 v = 1 /\ t2 v = 0.
Proof.
  intros Hs. unfold t1, t2. rewrite Hs. split.
  - apply smoothstep_above; lra.
  - apply smoothstep_below; lra.
Qed.

Lemma weights_at_07 v : uScroll v = 0.7 -> t1 v = 1 /\ t2 v = 1.
Proof.
  intros Hs. unfold t1, t2. rewrite Hs. split; apply smoothstep_above; lra.
Qed.

(** C2, as stated, fails: at [s = 0.3] and time 0, a particle whose box
    target is the origin is rendered 0.01 to the right of it; the same
    happens at [s = 0.7] with the brain target. *)
Lemma rendered_differs_from_target :
  rendered (still_vertex 0.3) <> aBox (still_vertex 0.3) /\
  rendered (still_vertex 0.7) <> aBrain (still_vertex 0.7).
Proof.
  split; intros H; apply (f_equal px) in H; revert H.
  - destruct (weights_at_03 (still_vertex 0.3) eq_refl) as [H1 H2].
    unfold rendered, blended. rewrite H1, H2. simpl.
    unfold mix. replace (0 * 1.0 + 0) with 0 by lra. rewrite cos_0. lra.
  - destruct (weights_at_07 (still_vertex 0.7) eq_refl) as [H1 H2].
    unfold rendered, blended. rewrite H1, H2. simpl.
    unfold mix. replace (0 * 1.0 + 0) with 0 by lra. rewrite cos_0. lra.
Qed.

(** C2 (amended).  At [s = 0.3] the weights are [t1 = 1] and [t2 = 0] and
    the blended position is the box target exactly; at [s = 0.7], [t2 = 1]
    and the blended position is the brain target exactly, whatever the
    first blend gave.  In both cases the rendered position is that target
    plus the floating noise at a tenth of its idle amplitude. *)
Theorem blend_reaches_box_and_brain (v : VertexIn) :
  (uScroll v = 0.3 ->
     t1 v = 1 /\ t2 v = 0 /\ blended v = aBox v /\
     rendered v = add3 (aBox v) (boxed_noise v)) /\
  (uScroll v = 0.7 ->
     t2 v = 1 /\ blended v = aBrain v /\
     (forall p, mix3 p (aBrain v) (t2 v) = aBrain v) /\
     rendered v = add3 (aBrain v) (boxed_noise v)).
Proof.
  split; intros Hs.
  - destruct (weights_at_03 v Hs) as [H1 H2].
    assert (Hb : blended v = aBox v).
    { unfold blended. cbv zeta. now rewrite H1, H2, mix3_0, mix3_1. }
    repeat split; auto.
    unfold rendered. cbv zeta. rewrite Hb, H1.
    replace (uTime v * 1.0) with (uTime v) by lra.
    unfold add3, boxed_noise. simpl. f_equal; lra.
  - destruct (weights_at_07 v Hs) as [H1 H2].
    assert (Hb : blended v = aBrain v).
    { unfold blended. cbv zeta. now rewrite H2, mix3_1. }
    repeat split; auto.
    + intros p. rewrite H2. apply mix3_1.
    + unfold rendered. cbv zeta. rewrite Hb, H1.
      replace (uTime v * 1.0) with (uTime v) by lra.
      unfold add3, boxed_noise. simpl. f_equal; lra.
Qed.

Lemma blend_reaches_box_and_brain_witness :
  blended (still_vertex 0.3) = aBox (still_vertex 0.3) /\
  blended (still_vertex 0.7) = aBrain (still_vertex 0.7).
Proof.
  split.
  - destruct (blend_reaches_box_and_brain (still_vertex 0.3)) as [H _].
    destruct (H eq_refl) as (_ & _ & Hb & _). exact Hb.
  - destruct (blend_reaches_box_and_brain (still_vertex 0.7)) as [_ H].
    destruct (H eq_refl) as (_ & Hb & _). exact Hb.
Defined.

(** ** ShapeSampler, Strategy A *)

Import ShapeSampler.

Section BodyFacts.

Variable rnd : nat -> R.

Lemma bind_random {B} (f : R -> Body B) k :
  bind (Math_random rnd) f k = f (rnd k) (S k).
Proof. reflexivity. Qed.

Lemma bind_Some {A B} (m : Body A) (f : A -> Body B) k b k' :
  bind m f k = (Some b, k') ->
  exists a k1, m k = (Some a, k1) /\ f a k1 = (Some b, k').
Proof.
  unfold bind. destruct (m k) as [[a|] k1]; intros H; [|discriminate].
  now exists a, k1.
Qed.

Lemma bind_continue {A B} (m : Body A) (f : A -> Body B) k k' :
  m k = (None, k') -> bind m f k = (None, k').
Proof. unfold bind. now intros ->. Qed.

Lemma when_skip {B} (b : bool) (stmt : Body unit) (f : unit -> Body B) k :
  b = false -> bind (when b stmt) f k = f tt k.
Proof. now intros ->. Qed.

Lemma when_continue_Some (b : bool) u k k' :
  when b continue k = (Some u, k') -> b = false /\ k' = k.
Proof.
  unfold when, continue, ret. destruct b; intros H; [discriminate|].
  injection H as _ <-. auto.
Qed.

Lemma when_Some (b : bool) (stmt : Body unit) u k k' :
  when b stmt k = (Some u, k') ->
  (b = true /\ stmt k = (Some u, k')) \/ b = false.
Proof. unfold when. destruct b; auto. Qed.

End BodyFacts.

(** Split [bind m f k = (Some _, _)] into the run of [m] and the run of the
    rest. *)
Ltac inv_bind H H1 :=
  apply bind_Some in H; destruct H as (? & ? & H1 & H); cbv beta zeta in H.

Lemma fold_noise_as_computed x y z :
  fold_noise (x, y, z) =
  sin (x * 12 + cos (y * 12)) * cos (y * 12 + sin (z * 12)) * sin (z * 12 + cos (x * 12)).
Proof. unfold fold_noise. now rewrite !(Rmult_comm 12). Qed.

Lemma draw_in_cube r : 0 <= r < 1 -> -1 <= (r - 0.5) * 2 <= 1.
Proof. lra. Qed.

(** What holds when the loop body reaches [break]. *)
Lemma brain_candidate_accepted rnd k c k' :
  valid_random rnd ->
  brain_candidate rnd k = (Some c, k') ->
  in_cube c /\ ellipsoid c /\ outside_fissure c /\ outside_front_cut c /\
  fold_noise c <= 0.25.
Proof.
  intros Hrnd H. unfold brain_candidate in H.
  rewrite !bind_random in H. cbv beta zeta in H.
  pose proof (draw_in_cube _ (Hrnd k)) as Hx.
  pose proof (draw_in_cube _ (Hrnd (S k))) as Hy.
  pose proof (draw_in_cube _ (Hrnd (S (S k)))) as Hz.
  set (bx := (rnd k - 0.5) * 2) in *.
  set (by_ := (rnd (S k) - 0.5) * 2) in *.
  set (bz := (rnd (S (S k)) - 0.5) * 2) in *.
  inv_bind H Hell. apply when_continue_Some in Hell as [Hell _].
  apply Rltb_false in Hell.
  inv_bind H Hfront.
  inv_bind H Hcereb.
  inv_bind H Hnoise. apply when_continue_Some in Hnoise as [Hnoise _].
  apply Rltb_false in Hnoise.
  inv_bind H Hfiss. apply when_continue_Some in Hfiss as [Hfiss _].
  apply Rltb_false in Hfiss.
  inv_bind H Hsoft.
  unfold ret in H. injection H as <- _.
  repeat split; try lra.
  - unfold ellipsoid. lra.
  - unfold outside_fissure. lra.
  - unfold outside_front_cut. intros (Hy1 & Hx1 & Hy2).
    apply when_Some in Hfront as [[_ Hblock]|Hcond].
    + inv_bind Hblock Hhard. apply when_continue_Some in Hhard as [Hhard _].
      apply Rltb_false in Hhard. lra.
    + apply andb_false_iff in Hcond as [Hcond|Hcond];
        apply Rltb_false in Hcond; lra.
  - rewrite fold_noise_as_computed. exact Hnoise.
Qed.

Lemma brain_loop_breaks rnd fuel : forall k c k',
  brain_loop rnd fuel k = Some (c, k') ->
  exists k0, brain_candidate rnd k0 = (Some c, k').
Proof.
  induction fuel as [|fuel IH]; intros k c k' H; simpl in H; [discriminate|].
  destruct (brain_candidate rnd k) as [[c0|] k1] eqn:E.
  - injection H as <- <-. now exists k.
  - now apply IH in H.
Qed.

(** The number of passes that the model follows does not change what the
    loop delivers: a result found within [fuel] passes is the result for
    every larger number of passes, for the loop and for the whole table. *)
Lemma brain_loop_more_fuel rnd fuel : forall fuel' k r,
  (fuel <= fuel')%nat -> brain_loop rnd fuel k = Some r -> brain_loop rnd fuel' k = Some r.
Proof.
  induction fuel as [|fuel IH]; intros fuel' k r Hle H; [discriminate|].
  destruct fuel' as [|fuel']; [lia|].
  cbn [brain_loop] in H |- *.
  destruct (brain_candidate rnd k) as [[c0|] k1]; [exact H|].
  apply IH; [lia | exact H].
Qed.

Lemma positions_A_more_fuel rnd fuel fuel' count : forall k r,
  (fuel <= fuel')%nat ->
  positions_A rnd fuel count k = Some r -> positions_A rnd fuel' count k = Some r.
Proof.
  induction count as [|count IH]; intros k r Hle H; [exact H|].
  cbn [positions_A] in H |- *.
  destruct (brain_loop rnd fuel (k + 6)) as [[[[bx by_] bz] k1]|] eqn:Eloop;
    [|discriminate].
  rewrite (brain_loop_more_fuel _ _ _ _ _ Hle Eloop).
  destruct (positions_A rnd fuel count (S k1)) as [[rest k2]|] eqn:Erest;
    [|discriminate].
  now rewrite (IH _ _ Hle Erest).
Qed.

(** C1.  Every brain target that Strategy A produces is
    [(5.5 * x, 5.0 * y, 4.5 * z)] for a candidate [(x, y, z)] of
    [[-1,1]^3] that satisfies [x*x + 1.4*y*y + 1.2*z*z <= 1], [|z| >= 0.04],
    not ([y < -0.2] and [x > -0.2] and [y < -0.4]), and fold noise at most
    0.25. *)
Theorem brain_targets_are_accepted_candidates
    (rnd : nat -> R) (fuel count k : nat) (P : Positions) (k' : nat) :
  valid_random rnd ->
  positions_A rnd fuel count k = Some (P, k') ->
  forall i, (i < count)%nat ->
  exists x y z,
    nth (3 * i) (brain P) 0 = x * 5.5 /\
    nth (3 * i + 1) (brain P) 0 = y * 5.0 /\
    nth (3 * i + 2) (brain P) 0 = z * 4.5 /\
    in_cube (x, y, z) /\ ellipsoid (x, y, z) /\ outside_fissure (x, y, z) /\
    outside_front_cut (x, y, z) /\ fold_noise (x, y, z) <= 0.25.
Proof.
  intros Hrnd. revert k P k'.
  induction count as [|count IH]; intros k P k' H i Hi; [lia|].
  cbn [positions_A] in H.
  destruct (brain_loop rnd fuel (k + 6)) as [[[[bx by_] bz] k1]|] eqn:Eloop;
    [|discriminate].
  destruct (positions_A rnd fuel count (S k1)) as [[rest k2]|] eqn:Erest;
    [|discriminate].
  injection H as <- <-.
  destruct i as [|i].
  - exists bx, by_, bz.
    destruct (brain_loop_breaks _ _ _ _ _ Eloop) as [k0 Hacc].
    pose proof (brain_candidate_accepted _ _ _ _ Hrnd Hacc) as Hshape.
    split; [reflexivity|]. split; [reflexivity|]. split; [reflexivity|].
    exact Hshape.
  - destruct (IH _ _ _ Erest i ltac:(lia)) as (x & y & z & H0 & H1 & H2 & Hshape).
    exists x, y, z.
    replace (3 * S i)%nat with (S (S (S (3 * i)))) by lia.
    split; [exact H0|]. split; [exact H1|]. split; [exact H2|].
    exact Hshape.
Qed.

Lemma lucky_valid : valid_random lucky.
Proof.
  intros k. unfold lucky.
  do 9 (destruct k as [|k]; [lra|]). lra.
Qed.

Lemma lucky_candidate :
  brain_candidate lucky 6%nat =
  (Some ((11 / 24 - 0.5) * 2, (1 / 2 - 0.5) * 2, (3 / 4 - 0.5) * 2), 9%nat).
Proof.
  unfold brain_candidate. rewrite !bind_random. cbv beta zeta.
  change (lucky 6%nat) with (11 / 24).
  change (lucky 7%nat) with (1 / 2).
  change (lucky 8%nat) with (3 / 4).
  rewrite when_skip by (apply Rltb_false; lra).
  rewrite when_skip by (apply andb_false_iff; left; apply Rltb_false; lra).
  rewrite when_skip by (apply andb_false_iff; left; apply Rltb_false; lra).
  rewrite when_skip.
  2:{ apply Rltb_false.
      replace ((1 / 2 - 0.5) * 2 * 12) with 0 by lra. rewrite cos_0.
      replace ((11 / 24 - 0.5) * 2 * 12 + 1) with 0 by lra. rewrite sin_0. lra. }
  rewrite (Rabs_pos_eq ((3 / 4 - 0.5) * 2)) by lra.
  rewrite when_skip by (apply Rltb_false; lra).
  rewrite when_skip by (apply Rltb_false; lra).
  reflexivity.
Qed.

Lemma lucky_run :
  positions_A lucky 1%nat 1%nat 0%nat = Some (lucky_positions, 10%nat).
Proof.
  unfold lucky_positions. cbn [positions_A brain_loop Nat.add].
  rewrite lucky_candidate. reflexivity.
Qed.

Lemma brain_targets_are_accepted_candidates_witness :
  exists x y z,
    nth (3 * 0) (brain lucky_positions) 0 = x * 5.5 /\
    nth (3 * 0 + 1) (brain lucky_positions) 0 = y * 5.0 /\
    nth (3 * 0 + 2) (brain lucky_positions) 0 = z * 4.5 /\
    in_cube (x, y, z) /\ ellipsoid (x, y, z) /\ outside_fissure (x, y, z) /\
    outside_front_cut (x, y, z) /\ fold_noise (x, y, z) <= 0.25.
Proof.
  apply (brain_targets_are_accepted_candidates
           lucky 1%nat 1%nat 0%nat lucky_positions 10%nat lucky_valid lucky_run 0%nat).
  lia.
Defined.

(** *** The loop has no bound *)

Lemma stuck_candidate k : brain_candidate stuck k = (None, S (S (S k))).
Proof.
  unfold brain_candidate. rewrite !bind_random. cbv beta zeta.
  apply bind_continue. unfold when, stuck.
  destruct (_ >? _) eqn:E; [reflexivity|].
  apply Rltb_false in E. lra.
Qed.

Lemma stuck_loop fuel : forall k, brain_loop stuck fuel k = None.
Proof.
  induction fuel as [|fuel IH]; intros k; [reflexivity|].
  simpl. rewrite stuck_candidate. apply IH.
Qed.

Lemma stuck_valid : valid_random stuck.
Proof. intros k. unfold stuck. lra. Qed.

(** C4, as stated, fails: when [Math.random] keeps returning 0, every
    candidate is the corner [(-1,-1,-1)], which the ellipsoid test rejects,
    and the loop of the first particle is still redrawing after any number
    of passes; no maximum number of redraws and no fallback exists. *)
Lemma sampling_loop_has_no_retry_bound :
  (forall fuel, brain_loop stuck fuel 6%nat = None) /\
  (forall fuel, positions_A stuck fuel 1%nat 0%nat = None) /\
  ~ exists max, bounded_retries max.
Proof.
  split; [|split].
  - intros fuel. apply stuck_loop.
  - intros fuel. cbn [positions_A Nat.add]. now rewrite stuck_loop.
  - intros [max H]. destruct (H stuck 0%nat stuck_valid) as (c & k' & E).
    rewrite stuck_loop in E. discriminate.
Qed.

(** C4 (amended).  The loop has no retry bound and no fallback: whatever
    number of passes is followed, it delivers a candidate exactly when that
    candidate is accepted in one of those passes and every pass before it
    ended in [continue]; so it delivers the first accepted candidate, after
    however many redraws that takes, and nothing else. *)
Theorem sampling_loop_returns_first_accepted
    (rnd : nat -> R) (fuel k : nat) (c : R * R * R) (k' : nat) :
  brain_loop rnd fuel k = Some (c, k') <->
  exists j, (j < fuel)%nat /\ nth_pass rnd j k = (Some c, k') /\
            forall i, (i < j)%nat -> fst (nth_pass rnd i k) = None.
Proof.
  revert k. induction fuel as [|fuel IH]; intros k.
  - simpl. split; [discriminate | intros (j & Hj & _); lia].
  - cbn [brain_loop].
    destruct (brain_candidate rnd k) as [[c0|] k1] eqn:E.
    + split.
      * intros H. exists 0%nat. split; [lia|]. split.
        -- simpl. rewrite E. now injection H as -> ->.
        -- intros i Hi. lia.
      * intros (j & _ & Hj & Hbefore). destruct j as [|j].
        -- simpl in Hj. rewrite E in Hj. now injection Hj as -> ->.
        -- specialize (Hbefore 0%nat ltac:(lia)). simpl in Hbefore.
           rewrite E in Hbefore. discriminate.
    + rewrite IH. split.
      * intros (j & Hj & Hacc & Hbefore). exists (S j). split; [lia|]. split.
        -- simpl. now rewrite E.
        -- intros [|i] Hi; simpl; rewrite E; [reflexivity|].
           apply Hbefore. lia.
      * intros (j & Hj & Hacc & Hbefore). destruct j as [|j].
        -- simpl in Hacc. rewrite E in Hacc. discriminate.
        -- exists j. split; [lia|]. split.
           ++ simpl in Hacc. now rewrite E in Hacc.
           ++ intros i Hi. specialize (Hbefore (S i) ltac:(lia)).
              simpl in Hbefore. now rewrite E in Hbefore.
Qed.

(** ** ShapeSampler, Strategy B *)

Import BrainTargets.

Lemma first_mesh_none {G} (l : list (Object3D G)) :
  (forall o, In o l -> isMesh o = false) -> first_mesh l = None.
Proof.
  unfold first_mesh. induction l as [|o l IH]; intros H; [reflexivity|].
  simpl. rewrite (H o) by now left.
  apply IH. intros o' Ho'. apply H. now right.
Qed.

Lemma positions_B_zero rnd count : forall k,
  brain (fst (positions_B rnd (repeat 0 (count * 3)) count k)) = repeat 0 (count * 3).
Proof.
  induction count as [|count IH]; intros k; [reflexivity|].
  cbn [positions_B Nat.mul Nat.add repeat skipn nth].
  specialize (IH (k + 7)%nat).
  destruct (positions_B rnd (repeat 0 (count * 3)) count (k + 7)) as [rest k1].
  simpl in IH |- *. rewrite IH.
  replace (0 * 5.0) with 0 by lra. reflexivity.
Qed.

(** C8.  When the loaded scene contains no mesh, [useBrainTargets] returns an
    array of [3 * count] zeros and writes one warning, and [positions] built
    from that array has [3 * count] brain entries, all 0. *)
Theorem no_mesh_gives_zero_targets
    (Geometry : Type) (sample : Object3D Geometry -> nat -> R * R * R)
    (scene : Object3D Geometry) (count : nat) (rnd : nat -> R) (k : nat) :
  (forall o, In o (traverse scene) -> isMesh o = false) ->
  let '(targets, warnings) := useBrainTargets Geometry sample scene count in
  targets = repeat 0 (count * 3) /\
  List.length targets = (3 * count)%nat /\
  warnings = [no_mesh_warning] /\
  brain (fst (positions_B rnd targets count k)) = repeat 0 (count * 3).
Proof.
  intros Hnone. unfold useBrainTargets.
  rewrite (first_mesh_none _ Hnone).
  split; [reflexivity|]. split; [rewrite repeat_length; lia|].
  split; [reflexivity|]. apply positions_B_zero.
Qed.

Lemma no_mesh_gives_zero_targets_witness :
  let scene := Node false tt [Node false tt []; Node false tt []] in
  let '(targets, warnings) :=
    useBrainTargets unit (fun _ _ => (1, 1, 1)) scene 2%nat in
  targets = repeat 0 (2 * 3) /\
  List.length targets = (3 * 2)%nat /\
  warnings = [no_mesh_warning] /\
  brain (fst (positions_B stuck targets 2%nat 0%nat)) = repeat 0 (2 * 3).
Proof.
  apply (no_mesh_gives_zero_targets unit (fun _ _ => (1, 1, 1))
           (Node false tt [Node false tt []; Node false tt []]) 2%nat stuck 0%nat).
  simpl. intros o [<-|[<-|[<-|[]]]]; reflexivity.
Defined.

(* ================================================================== *)
(** * Part III.  Further properties of the code                         *)
(* ================================================================== *)

(** ** DragController: inert events *)

Import DragSessions.

Lemma run_app evs1 evs2 d : run (evs1 ++ evs2) d = run evs2 (run evs1 d).
Proof. unfold run. apply fold_left_app. Qed.

Lemma startDrag_secondary e d :
  pointerType e = "mouse"%string -> button e <> 0%Z -> startDrag e d = d.
Proof.
  intros Ht Hb. unfold startDrag. rewrite Ht. simpl.
  destruct (Z.eqb_spec (button e) 0); [contradiction | reflexivity].
Qed.

(** X1.  A mouse press with a button other than the primary one is inert:
    deleting it from any session leaves the final state of [drag] as it
    is. *)
Theorem secondary_button_press_is_inert
    (e : PointerEvent) (before after : list Event) (d : Drag) :
  pointerType e = "mouse"%string -> button e <> 0%Z ->
  run (before ++ PointerDown e :: after) d = run (before ++ after) d.
Proof.
  intros Ht Hb. rewrite !run_app.
  change (run (PointerDown e :: after) (run before d))
    with (run after (startDrag e (run before d))).
  now rewrite startDrag_secondary.
Qed.

Lemma secondary_button_press_is_inert_witness :
  run ([Frame] ++ PointerDown right_click :: [PointerMove move_right_100]) flicked =
  run ([Frame] ++ [PointerMove move_right_100]) flicked.
Proof.
  apply secondary_button_press_is_inert; [reflexivity | discriminate].
Defined.

(** X2.  A pointer move that arrives while no drag is active is inert:
    deleting it from any session leaves the final state of [drag] as it
    is. *)
Theorem move_while_idle_is_inert
    (e : PointerEvent) (before after : list Event) (d : Drag) :
  active (run before d) = false ->
  run (before ++ PointerMove e :: after) d = run (before ++ after) d.
Proof.
  intros Hidle. rewrite !run_app.
  change (run (PointerMove e :: after) (run before d))
    with (run after (onMove e (run before d))).
  unfold onMove. now rewrite Hidle.
Qed.

Lemma move_while_idle_is_inert_witness :
  run ([PointerDown press_origin; PointerUp] ++ PointerMove move_right_100 :: [Frame]) drag =
  run ([PointerDown press_origin; PointerUp] ++ [Frame]) drag.
Proof.
  apply move_while_idle_is_inert. reflexivity.
Defined.

(** ** DragController: what a drag adds up to *)

Lemma during_drag_step d ev :
  active d = true -> during_drag ev = true ->
  active (step d ev) = true /\
  lastX (step d ev) = last_clientX (lastX d) [ev] /\
  yaw (step d ev) = yaw d + DRAG_SENS * (lastX (step d ev) - lastX d).
Proof.
  intros Ha Hev. destruct ev as [e|e| |]; try discriminate; simpl.
  - unfold onMove. rewrite Ha. cbn [negb]. drag_fields. unfold last_clientX.
    cbn [fold_left]. split; [exact Ha|]. split; [reflexivity|].
    unfold DRAG_SENS. lra.
  - rewrite (advanceDragInertia_active d Ha). unfold last_clientX.
    cbn [fold_left]. split; [exact Ha|]. split; [reflexivity | lra].
Qed.

(** X3.  Between a press and the release, whatever the moves and however
    many frames pass among them, [yaw] has changed by [DRAG_SENS] times the
    net horizontal travel of the pointer, [lastX] is the position of the
    last move, and the drag is still active. *)
Theorem drag_yaw_follows_net_travel (evs : list Event) (d : Drag) :
  active d = true ->
  forallb during_drag evs = true ->
  active (run evs d) = true /\
  lastX (run evs d) = last_clientX (lastX d) evs /\
  yaw (run evs d) = yaw d + 0.004 * (last_clientX (lastX d) evs - lastX d).
Proof.
  revert d. induction evs as [|ev evs IH]; intros d Ha Hall.
  - simpl. repeat split; [exact Ha | lra].
  - simpl in Hall. apply andb_true_iff in Hall as [Hev Hall].
    destruct (during_drag_step d ev Ha Hev) as (Ha' & Hx' & Hy').
    destruct (IH (step d ev) Ha' Hall) as (Ha2 & Hx2 & Hy2).
    change (run (ev :: evs) d) with (run evs (step d ev)).
    assert (Hlast : last_clientX (lastX d) (ev :: evs) =
                    last_clientX (lastX (step d ev)) evs).
    { rewrite Hx'. reflexivity. }
    rewrite Hlast. repeat split; auto.
    rewrite Hy2, Hy'. unfold DRAG_SENS. lra.
Qed.

Lemma drag_yaw_follows_net_travel_witness :
  yaw (run [PointerMove move_right_100; Frame; PointerMove press_origin; Frame]
           (startDrag press_origin drag)) =
  yaw (startDrag press_origin drag) +
  0.004 * (last_clientX (lastX (startDrag press_origin drag))
             [PointerMove move_right_100; Frame; PointerMove press_origin; Frame]
           - lastX (startDrag press_origin drag)).
Proof.
  apply (drag_yaw_follows_net_travel
           [PointerMove move_right_100; Frame; PointerMove press_origin; Frame]
           (startDrag press_origin drag)); reflexivity.
Defined.

(** ** DragController: coasting *)

Lemma advanceDragInertia_idle_state d :
  active d = false ->
  advanceDragInertia d =
  mkDrag (yaw d + velYaw d)
         (Rmax (- PITCH_LIMIT) (Rmin PITCH_LIMIT (pitch d + velPitch d)))
         (decay (velYaw d)) (decay (velPitch d)) false (lastX d) (lastY d).
Proof.
  intros Hidle. unfold advanceDragInertia, decay. rewrite Hidle. drag_fields.
  destruct (Rabs (velYaw d * DAMPING) <? 1e-5); drag_fields;
    destruct (Rabs (velPitch d * DAMPING) <? 1e-5); drag_fields;
    rewrite ?Hidle; reflexivity.
Qed.

Lemma decay_0 : decay 0 = 0.
Proof. unfold decay. cmp; [reflexivity | lra]. Qed.

Lemma decay_contracts v : Rabs (decay v) <= 0.9 * Rabs v.
Proof.
  unfold decay, DAMPING. pose proof (Rabs_pos v). cmp.
  - rewrite Rabs_R0. lra.
  - rewrite Rabs_mult, (Rabs_pos_eq 0.90) by lra. lra.
Qed.

Lemma decay_snaps v : Rabs v * 0.9 < 1e-5 -> decay v = 0.
Proof.
  intros H. unfold decay, DAMPING. cmp; [reflexivity|].
  rewrite Rabs_mult, (Rabs_pos_eq 0.90) in C by lra. lra.
Qed.

Lemma frames_idle_fields n d :
  active d = false ->
  velYaw (frames n d) = Nat.iter n decay (velYaw d) /\
  velPitch (frames n d) = Nat.iter n decay (velPitch d).
Proof.
  intros Hidle. induction n as [|n [IHy IHp]]; [split; reflexivity|].
  rewrite frames_S, (advanceDragInertia_idle_state _ (frames_idle n d Hidle)).
  simpl. now rewrite IHy, IHp.
Qed.

Lemma decay_iter_bound n v : Rabs (Nat.iter n decay v) <= Rabs v * 0.9 ^ n.
Proof.
  induction n as [|n IH]; simpl; [lra|].
  pose proof (decay_contracts (Nat.iter n decay v)). lra.
Qed.



Lemma decay_comes_to_rest v : exists N, forall n, (N <= n)%nat -> Nat.iter n decay v = 0.
Proof.
  pose proof (Rabs_pos v) as Hv.
  assert (Heps : 0 < 1e-5 / (Rabs v + 1)) by (apply Rdiv_lt_0_compat; lra).
  destruct (pow_lt_1_zero 0.9 ltac:(rewrite Rabs_pos_eq; lra) _ Heps) as [N HN].
  assert (Hsmall : forall m, (N <= m)%nat -> decay (Nat.iter m decay v) = 0).
  { intros m Hm. apply decay_snaps.
    pose proof (decay_iter_bound m v) as Hb.
    specialize (HN m ltac:(lia)).
    assert (Hp : 0 < 0.9 ^ m) by (apply pow_lt; lra).
    rewrite Rabs_pos_eq in HN by lra.
    assert (Rabs v * 0.9 ^ m < 1e-5).
    { apply Rle_lt_trans with ((Rabs v + 1) * 0.9 ^ m); [nra|].
      apply Rlt_le_trans with ((Rabs v + 1) * (1e-5 / (Rabs v + 1))).
      - apply Rmult_lt_compat_l; lra.
      - right. field. lra. }
    pose proof (Rabs_pos (Nat.iter m decay v)). lra. }
  exists (S N). intros n Hn. destruct n as [|n]; [lia|].
  simpl. apply Hsmall. lia.
Qed.

Lemma frames_at_rest d :
  active d = false -> pitch_in_range d -> velYaw d = 0 -> velPitch d = 0 ->
  advanceDragInertia d = d.
Proof.
  intros Hidle [Hlo Hhi] Hy Hp.
  rewrite (advanceDragInertia_idle_state d Hidle), Hy, Hp, decay_0.
  destruct d as [y p vy vp a lx ly]. simpl in *. subst.
  f_equal; try lra.
  rewrite Rplus_0_r, Rmin_right, Rmax_right by (rewrite ?Rmin_right; lra).
  reflexivity.
Qed.

Lemma pitch_in_range_after_frame d :
  active d = false -> pitch_in_range (advanceDragInertia d).
Proof.
  intros Hidle. unfold pitch_in_range.
  rewrite advanceDragInertia_pitch, Hidle. apply clamp_pitch_in_range.
Qed.

(** X5.  Coasting comes to rest: from any idle state there is a frame after
    which both velocities are exactly 0 and further frames do not change
    [drag] at all. *)
Theorem coasting_comes_to_rest (d : Drag) :
  active d = false ->
  exists N, forall n, (N <= n)%nat ->
    velYaw (frames n d) = 0 /\ velPitch (frames n d) = 0 /\
    frames n d = frames N d.
Proof.
  intros Hidle.
  destruct (decay_comes_to_rest (velYaw d)) as [Ny HNy].
  destruct (decay_comes_to_rest (velPitch d)) as [Np HNp].
  set (N := S (Nat.max Ny Np)).
  assert (Hzero : forall n, (N <= n)%nat ->
                            velYaw (frames n d) = 0 /\ velPitch (frames n d) = 0).
  { intros n Hn. destruct (frames_idle_fields n d Hidle) as [-> ->].
    split; [apply HNy | apply HNp]; lia. }
  exists N. intros n Hn.
  destruct (Hzero n Hn) as [Hy Hp]. split; [exact Hy|]. split; [exact Hp|].
  induction Hn as [|n Hn IH]; [reflexivity|].
  destruct (Hzero n Hn) as [Hy' Hp'].
  rewrite frames_S, frames_at_rest; auto.
  - now apply frames_idle.
  - destruct n as [|n]; [unfold N in Hn; lia|].
    rewrite frames_S. apply pitch_in_range_after_frame. now apply frames_idle.
Qed.

Lemma coasting_comes_to_rest_witness :
  exists N, forall n, (N <= n)%nat ->
    velYaw (frames n flicked) = 0 /\ velPitch (frames n flicked) = 0 /\
    frames n flicked = frames N flicked.
Proof.
  apply coasting_comes_to_rest. reflexivity.
Defined.

(** ** The page without pointer input *)

Lemma untouched_drag_at_rest n : frames n drag = drag.
Proof.
  induction n as [|n IH]; [reflexivity|].
  rewrite frames_S, IH. apply frames_at_rest; try reflexivity.
  unfold pitch_in_range. simpl. pose proof PITCH_LIMIT_pos. lra.
Qed.

(** X6.  As long as no pointer event arrives, [drag] stays at its initial
    value on every frame, and the rotations that the two frame callbacks
    assign are those of the earlier revision, which has no drag. *)
Theorem without_input_rotations_are_the_earlier_ones (n : nat) (elapsedTime s : R) :
  frames n drag = drag /\
  particle_rotation elapsedTime s (frames n drag) =
    EarlierRevision.particle_rotation elapsedTime s /\
  box_rotation s (frames n drag) = EarlierRevision.box_rotation s.
Proof.
  rewrite untouched_drag_at_rest. split; [reflexivity|].
  unfold particle_rotation, box_rotation, EarlierRevision.particle_rotation,
    EarlierRevision.box_rotation. simpl.
  split; f_equal; lra.
Qed.

(** ** The box: visibility and scale *)

Import BlackBoxMaterials.

Lemma opacity_range s : 0 <= opacity s <= 1.
Proof.
  destruct (opacity_cases s) as [[? ->]|[[? ->]|[[? ->]|[[? ->]|[? ->]]]]]; lra.
Qed.

Lemma opacity_positive s : 0 < opacity s <-> 0.1 < s < 0.5.
Proof.
  destruct (opacity_cases s) as [[? ->]|[[? ->]|[[? ->]|[[? ->]|[? ->]]]]]; lra.
Qed.

Section Box64.
Import PrimFloat.

Set Warnings "-inexact-float".

Lemma visible64_scroll_range (t : float) :
  Binary64.visible (Binary64.solidMat t) = true ->
  (0.1 <? t)%float = true /\ (t <=? 0.5)%float = true.
Proof.
  assert (H13 : (0.1 <? 0.3)%float = true) by reflexivity.
  assert (H14 : (0.1 <? 0.4)%float = true) by reflexivity.
  assert (H35 : (0.3 <=? 0.5)%float = true) by reflexivity.
  assert (H45 : (0.4 <=? 0.5)%float = true) by reflexivity.
  unfold Binary64.solidMat, Binary64.opacity. cbn [Binary64.visible].
  destruct (0.1 <? t)%float eqn:A1; destruct (t <=? 0.3)%float eqn:B1; cbn [andb].
  - intros _. split; [reflexivity|]. exact (f64_le_trans t 0.3 0.5 B1 H35).
  - destruct (0.3 <? t)%float eqn:A2; destruct (t <=? 0.4)%float eqn:B2; cbn [andb].
    + intros _. split; [reflexivity|]. exact (f64_le_trans t 0.4 0.5 B2 H45).
    + destruct (0.4 <? t)%float eqn:A3; destruct (t <=? 0.5)%float eqn:B3;
        cbn [andb]; intros H; try (vm_compute in H; discriminate).
      split; reflexivity.
    + destruct (0.4 <? t)%float eqn:A3; destruct (t <=? 0.5)%float eqn:B3;
        cbn [andb]; intros H; try (vm_compute in H; discriminate).
      split; reflexivity.
    + destruct (0.4 <? t)%float eqn:A3; destruct (t <=? 0.5)%float eqn:B3;
        cbn [andb]; intros H; try (vm_compute in H; discriminate).
      split; reflexivity.
  - destruct (0.3 <? t)%float eqn:A2; [|].
    + rewrite (f64_lt_trans 0.1 0.3 t H13 A2) in A1. discriminate.
    + cbn [andb]. destruct (0.4 <? t)%float eqn:A3.
      * rewrite (f64_lt_trans 0.1 0.4 t H14 A3) in A1. discriminate.
      * cbn [andb]. intros H. vm_compute in H. discriminate.
  - destruct (0.3 <? t)%float eqn:A2; [|].
    + rewrite (f64_lt_trans 0.1 0.3 t H13 A2) in A1. discriminate.
    + cbn [andb]. destruct (0.4 <? t)%float eqn:A3.
      * rewrite (f64_lt_trans 0.1 0.4 t H14 A3) in A1. discriminate.
      * cbn [andb]. intros H. vm_compute in H. discriminate.
Qed.

Lemma scale64_outside (t : float) :
  (t <=? 0.4)%float = true \/ (0.5 <? t)%float = true -> Binary64.scale t = 1%float.
Proof.
  unfold Binary64.scale. intros [H|H].
  - now rewrite (f64_le_not_lt t 0.4 H).
  - now rewrite (f64_lt_not_le 0.5 t H), andb_false_r.
Qed.

(** X7.  The two materials of the box always share their visibility.  They
    are visible for every [0.1 < s < 0.5], and hidden with opacity 0 for
    every [s <= 0.1] and every [s > 0.5]; the solid's opacity lies in
    [[0, 0.95]] and the wireframe's in [[0, 0.3]].  In the arithmetic of the
    code a visible material means [0.1 < s <= 0.5], and at [s = 0.5] itself
    the opacity comes out as [2^-52], not 0, so the materials are still
    visible there. *)
Theorem box_materials_visible_between_01_and_05 (s : R) :
  (0.1 < s < 0.5 -> visible (solidMat s) = true) /\
  (s <= 0.1 \/ 0.5 < s ->
     visible (solidMat s) = false /\
     material_opacity (solidMat s) = 0 /\ material_opacity (wireMat s) = 0) /\
  visible (wireMat s) = visible (solidMat s) /\
  0 <= material_opacity (solidMat s) <= 0.95 /\
  0 <= material_opacity (wireMat s) <= 0.3 /\
  (forall t : float,
     Binary64.visible (Binary64.solidMat t) = true ->
     (0.1 <? t)%float = true /\ (t <=? 0.5)%float = true) /\
  (forall t : float,
     Binary64.visible (Binary64.wireMat t) = Binary64.visible (Binary64.solidMat t)) /\
  Binary64.opacity 0.5%float = 0x1p-52%float /\
  Binary64.visible (Binary64.solidMat 0.5%float) = true.
Proof.
  pose proof (opacity_range s) as Hr. pose proof (opacity_positive s) as Hp.
  unfold solidMat, wireMat. cbn [visible material_opacity].
  split; [|split; [|split; [reflexivity|split; [lra|split; [lra|]]]]].
  - intros H. apply Rltb_true. tauto.
  - intros H.
    assert (Hz : opacity s = 0).
    { destruct (opacity_cases s) as [[? ->]|[[? ->]|[[? ->]|[[? ->]|[? ->]]]]]; lra. }
    rewrite Hz. split; [apply Rltb_false; lra | split; lra].
  - split; [exact visible64_scroll_range|].
    split; [reflexivity|]. split; reflexivity.
Qed.

Lemma box_materials_visible_between_01_and_05_witness :
  visible (solidMat 0.25) = true /\ material_opacity (wireMat 0.75) = 0 /\
  (0.1 <? 0.5)%float = true.
Proof.
  destruct (box_materials_visible_between_01_and_05 0.25) as (Hv & _).
  destruct (box_materials_visible_between_01_and_05 0.75)
    as (_ & Hh & _ & _ & _ & Hf & _ & _ & Hhalf).
  split; [apply Hv; lra|]. split; [apply Hh; lra|].
  exact (proj1 (Hf 0.5%float Hhalf)).
Defined.

End Box64.

Lemma scale_cases (s : R) :
  (0.4 < s <= 0.5 /\ scale s = 1 + ((s - 0.4) / 0.1) * 0.8) \/
  (~ 0.4 < s <= 0.5 /\ scale s = 1).
Proof.
  unfold scale. cmp; simpl;
    first [ left; split; [lra | reflexivity] | right; split; [lra | reflexivity] ].
Qed.

Section Scale64.
Import PrimFloat.

Set Warnings "-inexact-float".

(** X8.  The scale of the box lies in [[1, 1.8]], is 1 for [s <= 0.4] and
    for [s > 0.5], and between [s = 0.3] and [s = 0.5] it is
    [1 + 0.8 * (1 - opacity)], so the box grows exactly as it fades.  In the
    arithmetic of the code the scale is exactly 1 for [s <= 0.4] and for
    [s > 0.5] as well, and at [s = 0.5] it is 1.7999999999999998. *)
Theorem box_scale_mirrors_fade (s : R) :
  1 <= scale s <= 1.8 /\
  (s <= 0.4 \/ 0.5 < s -> scale s = 1) /\
  (0.3 <= s <= 0.5 -> scale s = 1 + 0.8 * (1 - opacity s)) /\
  (forall t : float,
     (t <=? 0.4)%float = true \/ (0.5 <? t)%float = true ->
     Binary64.scale t = 1%float) /\
  Binary64.scale 0.5%float = 1.7999999999999998%float.
Proof.
  split; [|split; [|split; [|split]]].
  - destruct (scale_cases s) as [[? ->]|[? ->]]; lra.
  - intros H. destruct (scale_cases s) as [[? ->]|[? ->]]; lra.
  - intros H.
    destruct (scale_cases s) as [[? ->]|[? ->]];
      destruct (opacity_cases s) as [[? ->]|[[? ->]|[[? ->]|[[? ->]|[? ->]]]]]; lra.
  - exact scale64_outside.
  - reflexivity.
Qed.

Lemma box_scale_mirrors_fade_witness :
  scale 0.45 = 1 + 0.8 * (1 - opacity 0.45) /\ scale 0.2 = 1 /\
  Binary64.scale 0.75%float = 1%float.
Proof.
  destruct (box_scale_mirrors_fade 0.45) as (_ & _ & H & Hf & _).
  destruct (box_scale_mirrors_fade 0.2) as (_ & H1 & _).
  split; [apply H; lra|]. split; [apply H1; lra|].
  apply Hf. right. reflexivity.
Defined.

Set Warnings "+inexact-float".

End Scale64.

(** ** The vertex shader over the whole scroll range *)

Lemma hermite_range t : 0 <= t <= 1 -> 0 <= t * t * (3 - 2 * t) <= 1.
Proof.
  intros [H0 H1].
  assert (Hsq : 0 <= t * t) by (apply Rmult_le_pos; lra).
  split.
  - apply Rmult_le_pos; lra.
  - assert (E : 1 - t * t * (3 - 2 * t) = (1 - t) * (1 - t) * (1 + 2 * t)) by ring.
    assert (0 <= (1 - t) * (1 - t) * (1 + 2 * t))
      by (apply Rmult_le_pos; [apply Rmult_le_pos|]; lra).
    lra.
Qed.

Lemma smoothstep_range a b x : 0 <= smoothstep a b x <= 1.
Proof. unfold smoothstep. apply hermite_range, clamp_range. Qed.

Lemma hermite_zero t : 0 <= t <= 1 -> t * t * (3 - 2 * t) = 0 -> t = 0.
Proof.
  intros [H0 H1] H.
  apply Rmult_integral in H as [H|H]; [|lra].
  apply Rmult_integral in H as [H|H]; exact H.
Qed.

Lemma mix_between u v t :
  0 <= t <= 1 -> Rmin u v <= mix u v t <= Rmax u v.
Proof.
  intros [H0 H1]. unfold mix, Rmin, Rmax. destruct (Rle_dec u v); split; nra.
Qed.

Lemma weights_range v : 0 <= t1 v <= 1 /\ 0 <= t2 v <= 1.
Proof. split; apply smoothstep_range. Qed.

(** X9.  The blend has three holds: up to [s = 0.1] it is the random target,
    from 0.3 to 0.5 the box target, from 0.7 on the brain target. *)
Theorem blend_holds_at_each_target (v : VertexIn) :
  (uScroll v <= 0.1 -> blended v = position v) /\
  (0.3 <= uScroll v <= 0.5 -> blended v = aBox v) /\
  (0.7 <= uScroll v -> blended v = aBrain v).
Proof.
  unfold blended, t1, t2. cbv zeta. repeat split; intros H.
  - rewrite (smoothstep_below 0.1 0.3), (smoothstep_below 0.5 0.7) by lra.
    now rewrite !mix3_0.
  - rewrite (smoothstep_above 0.1 0.3), (smoothstep_below 0.5 0.7) by lra.
    now rewrite mix3_0, mix3_1.
  - rewrite (smoothstep_above 0.5 0.7) by lra. apply mix3_1.
Qed.

Lemma blend_holds_at_each_target_witness :
  blended (still_vertex 0) = position (still_vertex 0) /\
  blended (still_vertex 0.4) = aBox (still_vertex 0.4) /\
  blended (still_vertex 1) = aBrain (still_vertex 1).
Proof.
  destruct (blend_holds_at_each_target (still_vertex 0)) as (H0 & _ & _).
  destruct (blend_holds_at_each_target (still_vertex 0.4)) as (_ & H1 & _).
  destruct (blend_holds_at_each_target (still_vertex 1)) as (_ & _ & H2).
  split; [apply H0 | split; [apply H1 | apply H2]]; simpl; lra.
Defined.

(** X10.  Each coordinate of the blended position lies between the least and
    the greatest of the corresponding coordinates of the three targets. *)
Theorem blend_stays_between_targets (v : VertexIn) :
  let lo c := Rmin (Rmin (c (position v)) (c (aBox v))) (c (aBrain v)) in
  let hi c := Rmax (Rmax (c (position v)) (c (aBox v))) (c (aBrain v)) in
  lo px <= px (blended v) <= hi px /\
  lo py <= py (blended v) <= hi py /\
  lo pz <= pz (blended v) <= hi pz.
Proof.
  destruct (weights_range v) as [H1 H2].
  cbv zeta. unfold blended, mix3. cbn [px py pz].
  repeat split;
    match goal with
    | |- context [mix (mix ?p ?b _) ?n _] =>
        pose proof (mix_between p b (t1 v) H1) as [? ?];
        pose proof (mix_between (mix p b (t1 v)) n (t2 v) H2) as [? ?];
        pose proof (Rmin_l (Rmin p b) n); pose proof (Rmin_r (Rmin p b) n);
        pose proof (Rmax_l (Rmax p b) n); pose proof (Rmax_r (Rmax p b) n);
        pose proof (Rmin_glb (Rmin p b) n (Rmin (mix p b (t1 v)) n));
        pose proof (Rmax_lub (Rmax p b) n (Rmax (mix p b (t1 v)) n))
    end.
  all: unfold Rmin, Rmax in *;
    repeat match goal with |- context [Rle_dec ?a ?b] => destruct (Rle_dec a b) end;
    repeat match goal with H : context [Rle_dec ?a ?b] |- _ => destruct (Rle_dec a b) end;
    lra.
Qed.



(** X12.  For every input, the pulse lies in [[0, 1]], the point size before
    the perspective division in [[10, 24]] and the alpha in [[0, 0.8]]; the
    alpha is 0, so the particles are invisible, exactly when
    [s <= 0.05]. *)
Theorem point_size_and_alpha_ranges (v : VertexIn) :
  0 <= vPulse v <= 1 /\
  10 <= baseSize v <= 24 /\
  0 <= vAlpha v <= 0.8 /\
  (vAlpha v = 0 <-> uScroll v <= 0.05).
Proof.
  destruct (weights_range v) as [[H10 H11] [H20 H21]].
  pose proof (SIN_bound (uTime v * 3.0 + aOffset v)) as [Hs0 Hs1].
  pose proof (smoothstep_range 0.05 0.15 (uScroll v)) as [Hf0 Hf1].
  assert (Hp : 0 <= vPulse v <= 1) by (unfold vPulse; lra).
  assert (Ha : 0.4 <= mix (mix 0.4 0.8 (t1 v)) 0.6 (t2 v) <= 0.8)
    by (unfold mix; split; nra).
  split; [exact Hp|]. split; [|split].
  - unfold baseSize. cbv zeta. unfold mix. split; nra.
  - unfold vAlpha. cbv zeta. split; nra.
  - unfold vAlpha. cbv zeta. split.
    + intros H.
      assert (Hfade : smoothstep 0.05 0.15 (uScroll v) = 0) by nra.
      unfold smoothstep in Hfade. cbv zeta in Hfade.
      apply hermite_zero in Hfade; [|apply clamp_range].
      unfold clamp in Hfade.
      assert (Hr : (uScroll v - 0.05) / (0.15 - 0.05) <= 0).
      { unfold Rmin, Rmax in Hfade.
        repeat match goal with
               | H : context [Rle_dec ?a ?b] |- _ => destruct (Rle_dec a b)
               end; lra. }
      lra.
    + intros H. rewrite (smoothstep_below 0.05 0.15) by lra. ring.
Qed.

(** ** Strategy A: how much randomness a candidate uses *)

Import Draws.

Section DrawFacts.

Variable rnd : nat -> R.

Lemma uses_ret {A} (a : A) : uses (ret a) 0.
Proof. intros k. simpl. lia. Qed.

Lemma uses_continue : uses continue 0.
Proof. intros k. simpl. lia. Qed.

Lemma uses_random : uses (Math_random rnd) 1.
Proof. intros k. simpl. lia. Qed.

Lemma uses_bind {A B} (m : Body A) (f : A -> Body B) a b :
  uses m a -> (forall v, uses (f v) b) -> uses (bind m f) (a + b).
Proof.
  intros Hm Hf k. unfold bind. specialize (Hm k).
  destruct (m k) as [[v|] k1]; simpl in *.
  - specialize (Hf v k1). lia.
  - lia.
Qed.

Lemma uses_when (b : bool) (stmt : Body unit) n : uses stmt n -> uses (when b stmt) n.
Proof.
  intros H k. unfold when. destruct b; [apply H|]. simpl. lia.
Qed.

Lemma uses_skipped (stmt : Body unit) : uses (when false stmt) 0.
Proof. intros k. simpl. lia. Qed.

End DrawFacts.

Ltac count_draws :=
  repeat first
    [ apply uses_skipped
    | eapply uses_bind; [|intros]
    | eapply uses_when
    | apply uses_ret
    | apply uses_continue
    | apply uses_random ].

Lemma brain_candidate_cursor rnd k :
  (k + 3 <= snd (brain_candidate rnd k) <= k + 5)%nat.
Proof.
  unfold brain_candidate. rewrite !bind_random. cbv beta zeta.
  set (bx := (rnd k - 0.5) * 2).
  set (by_ := (rnd (S k) - 0.5) * 2).
  set (bz := (rnd (S (S k)) - 0.5) * 2).
  match goal with
  | |- (_ <= snd (?m _) <= _)%nat =>
      assert (H : exists n, uses m n /\ (n <= 2)%nat);
        [|destruct H as (n & H & Hn); specialize (H (S (S (S k)))); lia]
  end.
  destruct (bx >? -0.2) eqn:Efront; destruct (bx <? -0.2) eqn:Ecereb.
  - apply Rltb_true in Efront, Ecereb. lra.
  - rewrite andb_false_r. eexists. split; [count_draws | simpl; lia].
  - rewrite andb_false_r. eexists. split; [count_draws | simpl; lia].
  - rewrite !andb_false_r. eexists. split; [count_draws | simpl; lia].
Qed.

(** X13.  One pass of the sampling loop calls [Math.random] at least three
    and at most five times, whether the candidate is accepted or not: the
    front taper and the cerebellum gap never both draw, because they need
    [bx > -0.2] and [bx < -0.2]. *)
Theorem sampling_pass_draws_three_to_five (rnd : nat -> R) (k : nat) :
  (k + 3 <= snd (brain_candidate rnd k) <= k + 5)%nat.
Proof. apply brain_candidate_cursor. Qed.

(** X14.  A candidate that passes the ellipsoid, fold and fissure tests and
    lies in none of the tapered zones ([by >= -0.2] and [|bz| >= 0.08]) is
    accepted on the spot, with no further call of [Math.random]. *)
Theorem candidate_outside_soft_zones_is_accepted (rnd : nat -> R) (k : nat) :
  let bx  := (rnd k - 0.5) * 2 in
  let by_ := (rnd (S k) - 0.5) * 2 in
  let bz  := (rnd (S (S k)) - 0.5) * 2 in
  ellipsoid (bx, by_, bz) ->
  -0.2 <= by_ ->
  fold_noise (bx, by_, bz) <= 0.25 ->
  0.08 <= Rabs bz ->
  brain_candidate rnd k = (Some (bx, by_, bz), S (S (S k))).
Proof.
  intros bx by_ bz Hell Hy Hnoise Hz.
  unfold brain_candidate. rewrite !bind_random. cbv beta zeta.
  fold bx by_ bz. unfold ellipsoid in Hell.
  rewrite fold_noise_as_computed in Hnoise.
  rewrite when_skip by (apply Rltb_false; lra).
  rewrite when_skip by (apply andb_false_iff; left; apply Rltb_false; lra).
  rewrite when_skip by (apply andb_false_iff; left; apply Rltb_false; lra).
  rewrite when_skip by (apply Rltb_false; exact Hnoise).
  rewrite when_skip by (apply Rltb_false; lra).
  rewrite when_skip by (apply Rltb_false; lra).
  reflexivity.
Qed.

Lemma candidate_outside_soft_zones_is_accepted_witness :
  brain_candidate lucky 6%nat =
  (Some ((lucky 6%nat - 0.5) * 2, (lucky 7%nat - 0.5) * 2, (lucky 8%nat - 0.5) * 2),
   9%nat).
Proof.
  apply (candidate_outside_soft_zones_is_accepted lucky 6%nat).
  - unfold ellipsoid, lucky. lra.
  - unfold lucky. lra.
  - unfold fold_noise, lucky.
    replace (12 * ((1 / 2 - 0.5) * 2)) with 0 by lra. rewrite cos_0.
    replace (12 * ((11 / 24 - 0.5) * 2) + 1) with 0 by lra. rewrite sin_0. lra.
  - unfold lucky. rewrite Rabs_pos_eq; lra.
Defined.

(** ** The tables of targets *)

Lemma random_target_range r : 0 <= r < 1 -> within (-25) 25 ((r - 0.5) * 50).
Proof. unfold within. lra. Qed.

Lemma box_target_range r : 0 <= r < 1 -> within (-2.55) 2.55 ((r - 0.5) * 5.1).
Proof. unfold within. lra. Qed.

Lemma offset_range r : 0 <= r < 1 -> within 0 offset_bound (r * PI * 2).
Proof. intros Hr. pose proof PI_RGT_0. unfold within, offset_bound. split; nra. Qed.

Lemma brain_loop_cursor rnd fuel : forall k c k',
  brain_loop rnd fuel k = Some (c, k') -> (k + 3 <= k')%nat.
Proof.
  induction fuel as [|fuel IH]; intros k c k' H; simpl in H; [discriminate|].
  pose proof (brain_candidate_cursor rnd k) as Hk.
  destruct (brain_candidate rnd k) as [[c0|] k1]; simpl in Hk.
  - injection H as _ <-. lia.
  - apply IH in H. lia.
Qed.

(** X15.  When Strategy A delivers its tables for [count] particles, the
    three target arrays hold [3 * count] numbers each and there are [count]
    offsets; every random target lies in [[-25, 25]], every box target in
    [[-2.55, 2.55]], every offset is at least 0 and at most [2 * PI] up to
    the rounding of the store; and at least ten calls of [Math.random] were
    made per particle. *)
Theorem strategy_A_tables_shape
    (rnd : nat -> R) (fuel count k : nat) (P : Positions) (k' : nat) :
  valid_random rnd ->
  positions_A rnd fuel count k = Some (P, k') ->
  List.length (random P) = (3 * count)%nat /\
  List.length (box P) = (3 * count)%nat /\
  List.length (brain P) = (3 * count)%nat /\
  List.length (randomOffsets P) = count /\
  Forall (within (-25) 25) (random P) /\
  Forall (within (-2.55) 2.55) (box P) /\
  Forall (within 0 offset_bound) (randomOffsets P) /\
  (k + 10 * count <= k')%nat.
Proof.
  intros Hrnd. revert k P k'.
  induction count as [|count IH]; intros k P k' H.
  - injection H as <- <-. simpl. repeat split; auto; lia.
  - cbn [positions_A] in H.
    destruct (brain_loop rnd fuel (k + 6)) as [[[[bx by_] bz] k1]|] eqn:Eloop;
      [|discriminate].
    destruct (positions_A rnd fuel count (S k1)) as [[rest k2]|] eqn:Erest;
      [|discriminate].
    injection H as <- <-.
    destruct (IH _ _ _ Erest) as (L1 & L2 & L3 & L4 & F1 & F2 & F3 & Hk).
    apply brain_loop_cursor in Eloop.
    pose proof PI_RGT_0 as Hpi.
    unfold push. cbn [random box brain randomOffsets List.length].
    rewrite L1, L2, L3, L4.
    repeat split; try lia.
    + repeat (apply Forall_cons; [apply random_target_range, Hrnd|]). exact F1.
    + repeat (apply Forall_cons; [apply box_target_range, Hrnd|]). exact F2.
    + apply Forall_cons; [apply offset_range, Hrnd | exact F3].
Qed.

Lemma strategy_A_tables_shape_witness :
  List.length (brain lucky_positions) = (3 * 1)%nat /\
  Forall (within (-2.55) 2.55) (box lucky_positions).
Proof.
  destruct (strategy_A_tables_shape lucky 1%nat 1%nat 0%nat lucky_positions 10%nat
              lucky_valid lucky_run) as (_ & _ & H3 & _ & _ & H6 & _).
  split; [exact H3 | exact H6].
Defined.

(** X16.  The tables of [src/App.tsx] for [count] particles: three target
    arrays of [3 * count] numbers, [count] offsets, exactly seven calls of
    [Math.random] per particle; every random target lies in [[-25, 25]],
    every box target in [[-2.55, 2.55]], every offset is at least 0 and at
    most [2 * PI] up to the rounding of the store. *)
Theorem strategy_B_tables_shape
    (rnd : nat -> R) (brainTargets : list R) (count k : nat) :
  valid_random rnd ->
  let P := fst (positions_B rnd brainTargets count k) in
  List.length (random P) = (3 * count)%nat /\
  List.length (box P) = (3 * count)%nat /\
  List.length (brain P) = (3 * count)%nat /\
  List.length (randomOffsets P) = count /\
  snd (positions_B rnd brainTargets count k) = (k + 7 * count)%nat /\
  Forall (within (-25) 25) (random P) /\
  Forall (within (-2.55) 2.55) (box P) /\
  Forall (within 0 offset_bound) (randomOffsets P).
Proof.
  intros Hrnd. cbv zeta. revert brainTargets k.
  induction count as [|count IH]; intros brainTargets k.
  - simpl. repeat split; auto; lia.
  - cbn [positions_B].
    specialize (IH (skipn 3 brainTargets) (k + 7)%nat).
    destruct (positions_B rnd (skipn 3 brainTargets) count (k + 7)) as [rest k1].
    cbn [fst snd] in IH |- *.
    destruct IH as (L1 & L2 & L3 & L4 & Hk & F1 & F2 & F3).
    unfold push. cbn [random box brain randomOffsets List.length].
    rewrite L1, L2, L3, L4, Hk.
    repeat split; try lia.
    + repeat (apply Forall_cons; [apply random_target_range, Hrnd|]). exact F1.
    + repeat (apply Forall_cons; [apply box_target_range, Hrnd|]). exact F2.
    + apply Forall_cons; [apply offset_range, Hrnd | exact F3].
Qed.

Lemma strategy_B_tables_shape_witness :
  List.length (box (fst (positions_B stuck [] 4%nat 0%nat))) = (3 * 4)%nat /\
  snd (positions_B stuck [] 4%nat 0%nat) = (0 + 7 * 4)%nat.
Proof.
  destruct (strategy_B_tables_shape stuck [] 4%nat 0%nat stuck_valid)
    as (_ & H2 & _ & _ & H5 & _).
  split; [exact H2 | exact H5].
Defined.

(** X17.  When [brainTargets] holds [3 * count] numbers, the brain table is
    [brainTargets] with every entry multiplied by 5. *)
Theorem strategy_B_brain_is_scaled_targets
    (rnd : nat -> R) (brainTargets : list R) (count k : nat) :
  List.length brainTargets = (3 * count)%nat ->
  brain (fst (positions_B rnd brainTargets count k)) =
  map (fun v => v * 5.0) brainTargets.
Proof.
  revert brainTargets k.
  induction count as [|count IH]; intros brainTargets k Hlen.
  - destruct brainTargets; [reflexivity | discriminate].
  - destruct brainTargets as [|a [|b [|c rest]]]; simpl in Hlen; try lia.
    cbn [positions_B skipn nth].
    specialize (IH rest (k + 7)%nat ltac:(lia)).
    destruct (positions_B rnd rest count (k + 7)) as [P k1].
    cbn [fst] in IH |- *. unfold push. cbn [brain map]. now rewrite IH.
Qed.

Lemma strategy_B_brain_is_scaled_targets_witness :
  brain (fst (positions_B stuck [1; 2; 3] 1%nat 0%nat)) = map (fun v => v * 5.0) [1; 2; 3].
Proof.
  apply strategy_B_brain_is_scaled_targets. reflexivity.
Defined.

(** ** Strategy B: which mesh is sampled *)

Lemma first_mesh_keeps {G} (l : list (Object3D G)) (m : Object3D G) :
  fold_left (fun brainMesh o =>
               match brainMesh with
               | None => if isMesh o then Some o else None
               | Some m => Some m
               end) l (Some m) = Some m.
Proof. induction l as [|o l IH]; [reflexivity | exact IH]. Qed.

Lemma first_mesh_found {G} (before after : list (Object3D G)) (m : Object3D G) :
  (forall o, In o before -> isMesh o = false) -> isMesh m = true ->
  first_mesh (before ++ m :: after) = Some m.
Proof.
  unfold first_mesh. induction before as [|o before IH]; intros Hb Hm.
  - simpl. rewrite Hm. apply first_mesh_keeps.
  - simpl. rewrite (Hb o) by now left.
    apply IH; [|exact Hm]. intros o' Ho'. apply Hb. now right.
Qed.

Lemma first_mesh_is_mesh {G} (l : list (Object3D G)) (m : Object3D G) :
  first_mesh l = Some m -> In m l /\ isMesh m = true.
Proof.
  unfold first_mesh. induction l as [|o l IH]; [discriminate|].
  simpl. destruct (isMesh o) eqn:E.
  - rewrite first_mesh_keeps. intros H. injection H as <-. auto.
  - intros H. apply IH in H. tauto.
Qed.

Lemma fill_length {G} (sample : Object3D G -> nat -> R * R * R) mesh n :
  forall i, List.length (fill G sample mesh i n) = (3 * n)%nat.
Proof.
  induction n as [|n IH]; intros i; [reflexivity|].
  cbn [fill]. destruct (sample mesh i) as [[a b] c].
  cbn [List.length]. rewrite IH. lia.
Qed.

Lemma fill_nth {G} (sample : Object3D G -> nat -> R * R * R) mesh n :
  forall i j, (j < n)%nat ->
  (nth (3 * j) (fill G sample mesh i n) 0,
   nth (3 * j + 1) (fill G sample mesh i n) 0,
   nth (3 * j + 2) (fill G sample mesh i n) 0) = sample mesh (i + j)%nat.
Proof.
  induction n as [|n IH]; intros i j Hj; [lia|].
  cbn [fill]. destruct (sample mesh i) as [[a b] c] eqn:E.
  destruct j as [|j].
  - simpl. now rewrite Nat.add_0_r, E.
  - replace (3 * S j)%nat with (S (S (S (3 * j)))) by lia.
    cbn [Nat.add nth]. rewrite IH by lia. f_equal. lia.
Qed.

(** X18.  [useBrainTargets] always returns [3 * count] numbers; it writes no
    warning when the scene has a mesh and exactly one when it has none. *)
Theorem useBrainTargets_length_and_warning
    (Geometry : Type) (sample : Object3D Geometry -> nat -> R * R * R)
    (scene : Object3D Geometry) (count : nat) :
  let result := useBrainTargets Geometry sample scene count in
  List.length (fst result) = (3 * count)%nat /\
  ((exists o, In o (traverse scene) /\ isMesh o = true) -> snd result = []) /\
  ((forall o, In o (traverse scene) -> isMesh o = false) ->
     snd result = [no_mesh_warning]).
Proof.
  cbv zeta. unfold useBrainTargets.
  destruct (first_mesh (traverse scene)) as [m|] eqn:E; cbn [fst snd].
  - split; [apply fill_length|]. split; [reflexivity|].
    intros Hnone. apply first_mesh_is_mesh in E as [Hin Hm].
    rewrite (Hnone m Hin) in Hm. discriminate.
  - split; [rewrite repeat_length; lia|]. split; [|reflexivity].
    intros (o & Hin & Hm). exfalso.
    apply in_split in Hin as (l1 & l2 & Hl).
    assert (Hex : exists before m' after,
               traverse scene = before ++ m' :: after /\
               (forall o', In o' before -> isMesh o' = false) /\ isMesh m' = true).
    { rewrite Hl. clear Hl E. induction l1 as [|a l1 IH].
      - exists [], o, l2. repeat split; auto. intros o' [].
      - destruct (isMesh a) eqn:Ea.
        + exists [], a, (l1 ++ o :: l2). repeat split; auto. intros o' [].
        + destruct IH as (b & m' & af & Hs & Hb & Hm').
          exists (a :: b), m', af. simpl. rewrite Hs. repeat split; auto.
          intros o' [<-|Ho']; auto. }
    destruct Hex as (b & m' & af & Hs & Hb & Hm').
    rewrite Hs, (first_mesh_found b af m' Hb Hm') in E. discriminate.
Qed.

Lemma useBrainTargets_length_and_warning_witness :
  snd (useBrainTargets unit (fun _ _ => (1, 1, 1))
         (Node false tt [Node true tt []]) 2%nat) = [].
Proof.
  destruct (useBrainTargets_length_and_warning unit (fun _ _ => (1, 1, 1))
              (Node false tt [Node true tt []]) 2%nat) as (_ & H & _).
  apply H. exists (Node true tt []). split; [simpl; auto | reflexivity].
Defined.

(** X19.  When the scene has a mesh, the points come from the first mesh in
    traversal order (the root before its children, the children left to
    right), whatever meshes follow: entries [3i], [3i+1] and [3i+2] are the
    coordinates of the [i]-th sample of that mesh. *)
Theorem useBrainTargets_samples_first_mesh
    (Geometry : Type) (sample : Object3D Geometry -> nat -> R * R * R)
    (scene : Object3D Geometry) (count : nat)
    (before after : list (Object3D Geometry)) (m : Object3D Geometry) :
  traverse scene = before ++ m :: after ->
  (forall o, In o before -> isMesh o = false) ->
  isMesh m = true ->
  let out := fst (useBrainTargets Geometry sample scene count) in
  forall i, (i < count)%nat ->
  (nth (3 * i) out 0, nth (3 * i + 1) out 0, nth (3 * i + 2) out 0) = sample m i.
Proof.
  intros Ht Hb Hm out i Hi. unfold out, useBrainTargets.
  rewrite Ht, (first_mesh_found before after m Hb Hm). cbn [fst].
  now rewrite fill_nth.
Qed.

Lemma useBrainTargets_samples_first_mesh_witness :
  let scene := Node false 0%nat [Node true 1%nat []; Node true 2%nat []] in
  let sample := fun (o : Object3D nat) (i : nat) => (INR (geometry o), INR i, 0) in
  let out := fst (useBrainTargets nat sample scene 3%nat) in
  (nth (3 * 2) out 0, nth (3 * 2 + 1) out 0, nth (3 * 2 + 2) out 0) =
  sample (Node true 1%nat []) 2%nat.
Proof.
  apply (useBrainTargets_samples_first_mesh nat
           (fun o i => (INR (geometry o), INR i, 0))
           (Node false 0%nat [Node true 1%nat []; Node true 2%nat []]) 3%nat
           [Node false 0%nat [Node true 1%nat []; Node true 2%nat []]]
           [Node true 2%nat []] (Node true 1%nat [])).
  - reflexivity.
  - intros o [<-|[]]. reflexivity.
  - reflexivity.
  - lia.
Defined.

(** ** The background canvas *)

Section CanvasFacts.
Import NeuralCanvas.

Lemma push_particles_runs width height rnd cnt fuel : forall i k,
  cnt <= INR (i + fuel) ->
  exists ps k',
    push_particles width height rnd fuel i cnt k = Some (ps, k') /\
    k' = (k + 5 * List.length ps)%nat /\
    cnt <= INR (i + List.length ps) /\
    (forall j, (j < List.length ps)%nat -> INR (i + j) < cnt).
Proof.
  induction fuel as [|fuel IH]; intros i k Hfuel.
  - simpl. rewrite Nat.add_0_r in Hfuel.
    rewrite (proj2 (Rltb_false _ _) Hfuel).
    exists [], k. simpl.
    repeat split; auto; [now rewrite Nat.add_0_r | intros; lia].
  - cbn [push_particles]. destruct (INR i <? cnt) eqn:E.
    + apply Rltb_true in E. unfold new_Particle.
      destruct (IH (S i) (k + 5)%nat) as (ps & k' & -> & Hk & Hc & Hlt).
      { replace (S i + fuel)%nat with (i + S fuel)%nat by lia. exact Hfuel. }
      eexists. eexists. split; [reflexivity|]. cbn [List.length].
      split; [lia|]. split.
      * replace (i + S (List.length ps))%nat with (S i + List.length ps)%nat by lia.
        exact Hc.
      * intros [|j] Hj; [now rewrite Nat.add_0_r|].
        replace (i + S j)%nat with (S i + j)%nat by lia. apply Hlt. lia.
    + apply Rltb_false in E.
      exists [], k. simpl.
      repeat split; auto; [now rewrite Nat.add_0_r | intros; lia].
Qed.

Lemma count_at_most_150 innerWidth : count innerWidth <= 150.
Proof. apply Rmin_r. Qed.

(** X20.  [resize] fills the canvas with the least whole number of particles
    that is not below [count = min(innerWidth / 10, 150)], so never more
    than 150, and calls [Math.random] five times for each; 150 passes of the
    loop always suffice. *)
Theorem resize_creates_at_most_150_particles
    (width height innerWidth : R) (rnd : nat -> R) (fuel k : nat) :
  (150 <= fuel)%nat ->
  exists ps k',
    push_particles width height rnd fuel 0 (count innerWidth) k = Some (ps, k') /\
    (List.length ps <= 150)%nat /\
    count innerWidth <= INR (List.length ps) /\
    (0 < count innerWidth -> INR (List.length ps) < count innerWidth + 1) /\
    k' = (k + 5 * List.length ps)%nat.
Proof.
  intros Hfuel.
  pose proof (count_at_most_150 innerWidth) as Hc.
  destruct (push_particles_runs width height rnd (count innerWidth) fuel 0 k)
    as (ps & k' & Hrun & Hk & Hge & Hlt).
  { apply Rle_trans with (INR 150); [simpl; lra|]. apply le_INR. lia. }
  exists ps, k'. split; [exact Hrun|].
  assert (Hlast : (0 < List.length ps)%nat ->
                  INR (List.length ps) < count innerWidth + 1).
  { intros Hpos. specialize (Hlt (List.length ps - 1)%nat ltac:(lia)).
    simpl in Hlt. rewrite minus_INR in Hlt by lia. simpl in Hlt. lra. }
  repeat split; auto.
  - destruct (List.length ps) as [|n] eqn:El; [lia|].
    specialize (Hlast ltac:(lia)).
    assert (INR (S n) < INR 151) by (simpl in *; lra).
    apply INR_lt in H. lia.
  - intros Hpos. destruct (List.length ps) as [|n] eqn:El.
    + simpl. lra.
    + apply Hlast. lia.
Qed.

Lemma resize_creates_at_most_150_particles_witness :
  exists ps k',
    push_particles 800 600 stuck 150 0 (count 1005) 0 = Some (ps, k') /\
    (List.length ps <= 150)%nat /\
    count 1005 <= INR (List.length ps) /\
    (0 < count 1005 -> INR (List.length ps) < count 1005 + 1) /\
    k' = (0 + 5 * List.length ps)%nat.
Proof.
  apply (resize_creates_at_most_150_particles 800 600 1005 stuck 150 0). lia.
Defined.

Lemma push_particles_fresh width height rnd cnt fuel : forall i k ps k',
  valid_random rnd -> 0 <= width -> 0 <= height ->
  push_particles width height rnd fuel i cnt k = Some (ps, k') ->
  Forall (fresh width height) ps.
Proof.
  intros i k ps k' Hrnd Hw Hh. revert i k ps k'.
  assert (Hnew : forall k, fresh width height (fst (new_Particle width height rnd k))).
  { intros k. unfold fresh, new_Particle. cbn [fst x y vx vy size].
    pose proof (Hrnd k). pose proof (Hrnd (k + 1)%nat).
    pose proof (Hrnd (k + 2)%nat). pose proof (Hrnd (k + 3)%nat).
    pose proof (Hrnd (k + 4)%nat).
    repeat split; try nra; apply Rabs_le; lra. }
  induction fuel as [|fuel IH]; intros i k ps k' H; cbn [push_particles] in H.
  - destruct (INR i <? cnt); [discriminate|]. injection H as <- _. constructor.
  - destruct (INR i <? cnt); [|injection H as <- _; constructor].
    pose proof (Hnew k) as Hp. unfold new_Particle in H, Hp. cbn [fst] in Hp.
    destruct (push_particles width height rnd fuel (S i) cnt (k + 5))
      as [[ps0 k0]|] eqn:E; [|discriminate].
    injection H as <- _. constructor; [exact Hp | eapply IH; eauto].
Qed.

(** X21.  Every particle that [resize] creates lies on the canvas, moves by
    at most 0.25 per frame along each axis, and has a radius in
    [[0.5, 2)]. *)
Theorem resize_creates_fresh_particles
    (width height cnt : R) (rnd : nat -> R) (fuel k : nat)
    (ps : list Particle) (k' : nat) :
  valid_random rnd -> 0 <= width -> 0 <= height ->
  push_particles width height rnd fuel 0 cnt k = Some (ps, k') ->
  Forall (fresh width height) ps.
Proof. intros. eapply push_particles_fresh; eauto. Qed.

Lemma resize_creates_fresh_particles_witness :
  Forall (fresh 800 600)
    [fst (new_Particle 800 600 stuck 0); fst (new_Particle 800 600 stuck 5)].
Proof.
  apply (resize_creates_fresh_particles 800 600 2 stuck 2 0 _ 10 stuck_valid);
    try lra.
  cbn [push_particles INR]. 
  rewrite (proj2 (Rltb_true 0 2)) by lra.
  rewrite (proj2 (Rltb_true 1 2)) by lra.
  rewrite (proj2 (Rltb_false (1 + 1) 2)) by lra.
  reflexivity.
Defined.

End CanvasFacts.

Section CanvasMotion.
Import NeuralCanvas.

Variables width height : R.

Lemma update_fields p :
  let q := update width height p in
  x q = x p + vx p /\ y q = y p + vy p /\ size q = size p /\
  (vx q = vx p \/ vx q = - vx p) /\ (vy q = vy p \/ vy q = - vy p) /\
  (vx q = if (x p + vx p <? 0) || (x p + vx p >? width) then - vx p else vx p).
Proof.
  cbv zeta. unfold update. cbn [x y vx vy size].
  destruct ((x p + vx p <? 0) || (x p + vx p >? width));
    cbn [x y vx vy size];
    destruct ((y p + vy p <? 0) || (y p + vy p >? height));
    cbn [x y vx vy size];
    repeat split; first [reflexivity | lra | left; lra | right; lra].
Qed.

Lemma update_same_motion p : same_motion p (update width height p).
Proof.
  destruct (update_fields p) as (_ & _ & Hs & [Hx|Hx] & [Hy|Hy] & _);
    unfold same_motion; rewrite Hx, Hy, ?Rabs_Ropp; auto.
Qed.

Lemma mouse_link_same_motion mouse p : same_motion p (snd (mouse_link mouse p)).
Proof.
  unfold mouse_link, same_motion. cbv zeta.
  destruct (_ <? 250); cbn [snd vx vy size]; auto.
Qed.

Lemma same_motion_refl p : same_motion p p.
Proof. unfold same_motion. auto. Qed.

Lemma same_motion_trans p q r : same_motion p q -> same_motion q r -> same_motion p r.
Proof.
  unfold same_motion. intros (A & B & C) (D & E & F).
  rewrite D, E, F. auto.
Qed.

Lemma drawConnections_same_motion mouse ps :
  Forall2 same_motion ps (snd (drawConnections mouse ps)).
Proof.
  induction ps as [|p ps IH]; [constructor|].
  cbn [drawConnections].
  pose proof (mouse_link_same_motion mouse p) as Hp.
  destruct (mouse_link mouse p) as [toMouse p'].
  destruct (drawConnections mouse ps) as [later rest].
  cbn [snd] in *. constructor; auto.
Qed.

Lemma Forall2_same_motion_trans l1 : forall l2 l3,
  Forall2 same_motion l1 l2 -> Forall2 same_motion l2 l3 -> Forall2 same_motion l1 l3.
Proof.
  induction l1 as [|a l1 IH]; intros l2 l3 H12 H23;
    inversion H12; subst; inversion H23; subst; constructor.
  - eapply same_motion_trans; eauto.
  - eapply IH; eauto.
Qed.

Lemma animate_same_motion mouse ps :
  Forall2 same_motion ps (snd (animate width height mouse ps)).
Proof.
  unfold animate. cbv zeta.
  pose proof (drawConnections_same_motion mouse (map (update width height) ps)) as H.
  destruct (drawConnections mouse (map (update width height) ps)) as [strokes ps'].
  cbn [snd] in *.
  eapply Forall2_same_motion_trans; [|exact H].
  clear. induction ps as [|p ps IH]; simpl; constructor; auto.
  apply update_same_motion.
Qed.

(** X22.  However many frames are animated and wherever the mouse is, the
    canvas keeps the same number of particles, and each particle keeps its
    radius and its speed along each axis: bouncing only flips a sign and the
    pull of the mouse moves a particle without changing its velocity. *)
Theorem animation_preserves_particles
    (n : nat) (mouse : Mouse) (ps : list Particle) :
  List.length (animate_n n width height mouse ps) = List.length ps /\
  Forall2 same_motion ps (animate_n n width height mouse ps).
Proof.
  assert (H : Forall2 same_motion ps (animate_n n width height mouse ps)).
  { revert ps. induction n as [|n IH]; intros ps; cbn [animate_n].
    - induction ps; constructor; auto using same_motion_refl.
    - eapply Forall2_same_motion_trans; [apply animate_same_motion | apply IH]. }
  split; [|exact H]. symmetry. eapply Forall2_length, H.
Qed.

Lemma update_near_x p :
  near width (x p) (vx p) ->
  near width (x (update width height p)) (vx (update width height p)).
Proof.
  destruct (update_fields p) as (Hx & _ & _ & _ & _ & Hv). cbv zeta in *.
  unfold near. rewrite Hx, Hv. intros [Hin|Hnext].
  - destruct (x p + vx p <? 0) eqn:E1; destruct (x p + vx p >? width) eqn:E2;
      cbn [orb]; try (right; lra).
    apply Rltb_false in E1, E2. left. lra.
  - rewrite (proj2 (Rltb_false _ _)), (proj2 (Rltb_false _ _)) by lra.
    cbn [orb]. left. lra.
Qed.

End CanvasMotion.

Section CanvasBounce.
Import NeuralCanvas.

Variables width height : R.

Lemma update_vy p :
  y (update width height p) = y p + vy p /\
  vy (update width height p) =
    if (y p + vy p <? 0) || (y p + vy p >? height) then - vy p else vy p.
Proof.
  unfold update. cbn [x y vx vy size].
  destruct ((x p + vx p <? 0) || (x p + vx p >? width));
    cbn [x y vx vy size];
    destruct ((y p + vy p <? 0) || (y p + vy p >? height));
    cbn [x y vx vy size]; split; lra.
Qed.

Lemma update_near_y p :
  near height (y p) (vy p) ->
  near height (y (update width height p)) (vy (update width height p)).
Proof.
  destruct (update_vy p) as (Hy & Hv).
  unfold near. rewrite Hy, Hv. intros [Hin|Hnext].
  - destruct (y p + vy p <? 0) eqn:E1; destruct (y p + vy p >? height) eqn:E2;
      cbn [orb]; try (right; lra).
    apply Rltb_false in E1, E2. left. lra.
  - rewrite (proj2 (Rltb_false _ _)), (proj2 (Rltb_false _ _)) by lra.
    cbn [orb]. left. lra.
Qed.

Lemma near_bound limit c v : near limit c v -> - Rabs v <= c <= limit + Rabs v.
Proof.
  unfold near, Rabs. destruct (Rcase_abs v); intros [H|H]; lra.
Qed.

Lemma update_n_invariant n p :
  near width (x p) (vx p) -> near height (y p) (vy p) ->
  let q := update_n n width height p in
  near width (x q) (vx q) /\ near height (y q) (vy q) /\ same_motion p q.
Proof.
  intros Hx Hy. cbv zeta. induction n as [|n (IHx & IHy & IHm)].
  - simpl. repeat split; auto.
  - unfold update_n in *. cbn [Nat.iter].
    split; [now apply update_near_x|]. split; [now apply update_near_y|].
    eapply same_motion_trans; [exact IHm | apply update_same_motion].
Qed.

(** X23.  Without the pull of the mouse, a particle that starts on the
    canvas never strays from it by more than one step: after any number of
    updates its abscissa is within [|vx|] of [[0, width]] and its ordinate
    within [|vy|] of [[0, height]]. *)
Theorem bouncing_particle_stays_by_canvas (p : Particle) (n : nat) :
  0 <= x p <= width -> 0 <= y p <= height ->
  let q := update_n n width height p in
  - Rabs (vx p) <= x q <= width + Rabs (vx p) /\
  - Rabs (vy p) <= y q <= height + Rabs (vy p).
Proof.
  intros Hx Hy.
  destruct (update_n_invariant n p (or_introl Hx) (or_introl Hy))
    as (Nx & Ny & (Mx & My & _)).
  cbv zeta. rewrite <- Mx, <- My.
  split; apply near_bound; assumption.
Qed.

End CanvasBounce.

Lemma bouncing_particle_stays_by_canvas_witness :
  let p := NeuralCanvas.mkParticle 799.9 0.1 0.25 (-0.25) 1 in
  let q := NeuralCanvas.update_n 9 800 600 p in
  - Rabs (NeuralCanvas.vx p) <= NeuralCanvas.x q <= 800 + Rabs (NeuralCanvas.vx p) /\
  - Rabs (NeuralCanvas.vy p) <= NeuralCanvas.y q <= 600 + Rabs (NeuralCanvas.vy p).
Proof.
  apply (bouncing_particle_stays_by_canvas 800 600
           (NeuralCanvas.mkParticle 799.9 0.1 0.25 (-0.25) 1) 9); simpl; lra.
Defined.

Section CanvasMouse.
Import NeuralCanvas.

Lemma far_from_mouse (dx dy r : R) :
  0 <= r -> r <= dx -> r <= sqrt (dx * dx + dy * dy).
Proof.
  intros Hr Hdx. rewrite <- (sqrt_square r) by exact Hr.
  apply sqrt_le_1_alt. nra.
Qed.

(** X24.  The pull of the mouse: a particle closer to the mouse than 250 is
    moved straight towards it, to 0.985 of its offset, and gets one yellow
    line; a particle at distance 250 or more is left as it is and gets no
    line. *)
Theorem mouse_pull_contracts_offset (mouse : Mouse) (p : Particle) :
  let d := sqrt ((x p - mouse_x mouse) * (x p - mouse_x mouse) +
                 (y p - mouse_y mouse) * (y p - mouse_y mouse)) in
  let q := snd (mouse_link mouse p) in
  (d < 250 ->
     x q - mouse_x mouse = 0.985 * (x p - mouse_x mouse) /\
     y q - mouse_y mouse = 0.985 * (y p - mouse_y mouse) /\
     List.length (fst (mouse_link mouse p)) = 1%nat) /\
  (250 <= d -> q = p /\ fst (mouse_link mouse p) = []).
Proof.
  cbv zeta. unfold mouse_link. cbv zeta. split; intros H.
  - rewrite (proj2 (Rltb_true _ _) H). cbn [fst snd x y List.length].
    repeat split; lra.
  - rewrite (proj2 (Rltb_false _ _) H). auto.
Qed.

Lemma mouse_pull_contracts_offset_witness :
  let p := mkParticle 30 40 0 0 1 in
  x (snd (mouse_link (mkMouse 0 0) p)) - 0 = 0.985 * (30 - 0).
Proof.
  destruct (mouse_pull_contracts_offset (mkMouse 0 0) (mkParticle 30 40 0 0 1))
    as [H _].
  apply H. cbn [x y mouse_x mouse_y].
  replace ((30 - 0) * (30 - 0) + (40 - 0) * (40 - 0)) with (50 * 50) by lra.
  rewrite sqrt_square; lra.
Defined.

Lemma links_white p rest : Forall (fun s => ink s = White) (links p rest).
Proof.
  induction rest as [|q rest IH]; [constructor|].
  cbn [links]. cbv zeta. apply Forall_app. split; [|exact IH].
  destruct (_ <? 150); repeat constructor.
Qed.

(** X25.  After [mouseout] the mouse is parked at [(-1000, -1000)]; then
    [drawConnections] leaves every particle with [x >= -750] where it is,
    and paints white lines only. *)
Theorem parked_mouse_pulls_nothing (ps : list Particle) :
  Forall (fun p => -750 <= x p) ps ->
  snd (drawConnections mouse_away ps) = ps /\
  Forall (fun s => ink s = White) (fst (drawConnections mouse_away ps)).
Proof.
  induction 1 as [|p ps Hp _ [IHs IHw]]; [split; [reflexivity | constructor]|].
  cbn [drawConnections].
  assert (E : mouse_link mouse_away p = ([], p)).
  { unfold mouse_link. cbv zeta. cbn [mouse_x mouse_y mouse_away].
    rewrite (proj2 (Rltb_false _ _)); [reflexivity|].
    apply far_from_mouse; lra. }
  rewrite E. destruct (drawConnections mouse_away ps) as [later rest].
  cbn [fst snd] in *. split; [now rewrite IHs|].
  apply Forall_app. split; [apply links_white | exact IHw].
Qed.

Lemma parked_mouse_pulls_nothing_witness :
  snd (drawConnections mouse_away [mkParticle 0 0 0.1 0.1 1; mkParticle 5 5 0 0 1]) =
  [mkParticle 0 0 0.1 0.1 1; mkParticle 5 5 0 0 1].
Proof.
  apply parked_mouse_pulls_nothing.
  repeat (apply Forall_cons; [cbn [x]; lra|]). constructor.
Defined.

Lemma links_well_formed mouse p rest :
  Forall (well_formed_stroke mouse) (links p rest).
Proof.
  induction rest as [|q rest IH]; [constructor|].
  cbn [links]. cbv zeta. apply Forall_app. split; [|exact IH].
  destruct (_ <? 150) eqn:E; [|constructor].
  apply Rltb_true in E.
  match type of E with sqrt ?a < _ => pose proof (sqrt_pos a) end.
  apply Forall_cons; [|constructor].
  unfold well_formed_stroke. cbn [ink alpha lineWidth].
  split; [lra | reflexivity].
Qed.

(** X26.  Every line that [drawConnections] paints is visible and no
    stronger than its kind allows: a white line between particles has
    width 0.5 and an alpha in [(0, 0.15]], a yellow line has width 1.5, an
    alpha in [(0, 0.6]] and ends at the mouse. *)
Theorem connection_lines_are_well_formed (mouse : Mouse) (ps : list Particle) :
  Forall (well_formed_stroke mouse) (fst (drawConnections mouse ps)).
Proof.
  induction ps as [|p ps IH]; [constructor|].
  cbn [drawConnections].
  assert (Hm : Forall (well_formed_stroke mouse) (fst (mouse_link mouse p))).
  { unfold mouse_link. cbv zeta. destruct (_ <? 250) eqn:E; [|constructor].
    apply Rltb_true in E. cbn [fst].
    match type of E with sqrt ?a < _ => pose proof (sqrt_pos a) end.
    apply Forall_cons; [|constructor].
    unfold well_formed_stroke. cbn [ink alpha lineWidth to_].
    split; [lra | split; reflexivity]. }
  destruct (mouse_link mouse p) as [toMouse p'].
  destruct (drawConnections mouse ps) as [later rest]. cbn [fst] in *.
  apply Forall_app. split; [apply links_well_formed|].
  apply Forall_app. split; assumption.
Qed.

End CanvasMouse.
